(** * Session store of [local_db.py]: model and verified properties

    The module keeps one table, [sessions], in a PostgreSQL database and
    offers five operations on it: [store_user_auth], [is_valid_token],
    [get_login_by_token], [get_role_id_by_token] and [remove_token].

    The embedding is shallow.  Every SQL statement the module prepares
    becomes a function on the table, every Python function becomes a
    computation in a small state-and-exception monad over the global
    [DB_CONN].  The clock and the random source are arguments: each
    statement that reads [current_timestamp] (and the call of
    [datetime.datetime.now()]) receives its own reading, in microseconds,
    and [secrets.token_hex] receives the bytes the system source hands out.
    The backend runs on the same host ([localhost]); its clock and the
    interpreter's are taken to be one clock, read in one time zone.

    Column types are those of the [CREATE TABLE] statement of
    [configure_db]: [CHAR(64)] pads with blanks, rejects over-long values
    and compares without trailing blanks; [INTEGER] is 32 bits wide;
    [TIMESTAMP(0)] rounds to whole seconds; [SERIAL] draws from a sequence.
    Characters are code points below 256; the backend refuses every text
    value that holds U+0000, in a row to store as in a parameter to
    compare.  The place a new row takes in the order of a scan is the
    backend's choice and an argument here.  Connection failures are
    outside the model. *)

From Stdlib Require Import ZArith String Ascii List Bool Lia.
Import ListNotations.

Local Open Scope Z_scope.

(** ** Strings *)

(** A string is the list of its characters. *)
Definition str : Type := list ascii.

(** String literal. *)
Definition lit (s : string) : str := list_ascii_of_string s.

Fixpoint str_eqb (a b : str) : bool :=
  match a, b with
  | [], [] => true
  | x :: a', y :: b' => Ascii.eqb x y && str_eqb a' b'
  | _, _ => false
  end.

Definition blank : ascii := " "%char.

Definition is_blank (c : ascii) : bool := Ascii.eqb c blank.

(** [dropwhile p s] removes the longest prefix of [s] whose characters
    satisfy [p]. *)
Fixpoint dropwhile {A : Type} (p : A -> bool) (s : list A) : list A :=
  match s with
  | [] => []
  | c :: s' => if p c then dropwhile p s' else s
  end.

(** Removal of the longest suffix whose characters satisfy [p]. *)
Definition dropwhile_end {A : Type} (p : A -> bool) (s : list A) : list A :=
  rev (dropwhile p (rev s)).

(** ** Python built-ins used by the module *)

Module Py.

(** [str.isspace] on one character, for code points below 256:
    TAB, LF, VT, FF, CR, FS, GS, RS, US, SPACE, NEL and NBSP. *)
Definition isspace (c : ascii) : bool :=
  let n := nat_of_ascii c in
  ((9 <=? n) && (n <=? 13))%nat || ((28 <=? n) && (n <=? 32))%nat
  || (n =? 133)%nat || (n =? 160)%nat.

(** [s.strip()]: leading and trailing whitespace removed. *)
Definition strip (s : str) : str :=
  dropwhile isspace (dropwhile_end isspace s).

(** Lower-case hexadecimal digit of a value below 16. *)
Definition hexdigit (n : N) : ascii :=
  if (n <? 10)%N then ascii_of_N (48 + n) else ascii_of_N (87 + n).

(** [bytes.hex()]: two digits per byte, high nibble first. *)
Fixpoint hex (bs : list Byte.byte) : str :=
  match bs with
  | [] => []
  | b :: bs' =>
      let n := Byte.to_N b in
      hexdigit (n / 16)%N :: hexdigit (n mod 16)%N :: hex bs'
  end.

(** Exceptions the module can raise.  [DatabaseError] stands for the
    errors the driver reports when the backend refuses a statement
    (a value too long, out of range or not encodable). *)
Inductive exn : Type :=
| AssertionError
| AttributeError
| IndexError
| DatabaseError.

Inductive result (A : Type) : Type :=
| Ok (a : A)
| Raise (e : exn).
Arguments Ok {A} a.
Arguments Raise {A} e.

(** [l[i]] on a list: [IndexError] when out of range (the module only
    indexes with 0). *)
Definition getitem {A : Type} (l : list A) (i : nat) : result A :=
  match nth_error l i with
  | Some a => Ok a
  | None => Raise IndexError
  end.

End Py.

(** ** PostgreSQL column types of the [sessions] table *)

Module Pg.

Definition blanks (n : nat) : str := repeat blank n.

(** A text value the backend takes: it holds no U+0000. *)
Definition text_ok (s : str) : bool :=
  forallb (fun c => negb (Ascii.eqb c zero)) s.

(** A parameter of type [CHAR], as in [token = $1]: any length, refused
    when it holds U+0000. *)
Definition text_param (s : str) : option str :=
  if text_ok s then Some s else None.

(** Assignment of a string to a [CHAR(n)] column: a value with U+0000 is
    rejected; a shorter value is padded with blanks, a longer one is
    rejected unless the excess is all blanks, in which case it is cut. *)
Definition bpchar (n : nat) (s : str) : option str :=
  if negb (text_ok s) then None
  else if (length s <=? n)%nat then Some (s ++ blanks (n - length s))
  else if forallb is_blank (skipn n s) then Some (firstn n s)
  else None.

(** Comparison [=] at type [CHAR]: trailing blanks do not count. *)
Definition bpchar_eq (a b : str) : bool :=
  str_eqb (dropwhile_end is_blank a) (dropwhile_end is_blank b).

(** Assignment to an [INTEGER] column: out of range is rejected. *)
Definition int4 (z : Z) : option Z :=
  if (- 2 ^ 31 <=? z) && (z <? 2 ^ 31) then Some z else None.

(** Assignment to a [TIMESTAMP(0)] column.  A timestamp counts the
    microseconds since 2000-01-01 00:00:00; the fraction of a second is
    rounded to the nearest second, halves away from zero. *)
Definition timestamp0 (t : Z) : Z :=
  if 0 <=? t then (t + 500000) / 1000000 * 1000000
  else - ((- t + 500000) / 1000000 * 1000000).

End Pg.

(** ** The [sessions] table *)

(** One row of [sessions]. *)
Record session : Type := {
  id : Z;
  token : str;
  login : str;
  role_id : Z;
  expires : Z
}.

(** The database behind the connection: the rows of [sessions] in the
    order a sequential scan visits them (statements below that say
    [LIMIT 1] take the first row of the scan; a [DELETE] keeps the order
    of the rows it leaves; an [INSERT] puts the row where the backend
    finds room) and the next value of the sequence that feeds [id]. *)
Record database : Type := {
  sessions : list session;
  sessions_id_seq : Z
}.

(** [insert_at slot x l]: [x] put into [l] before the element at
    position [slot], or at the end when [l] is shorter. *)
Definition insert_at {A : Type} (slot : nat) (x : A) (l : list A) : list A :=
  firstn slot l ++ x :: skipn slot l.

(** ** SQL statements prepared by the module *)

Module Sql.

(** [WHERE token = $1] *)
Definition token_is (t : str) (r : session) : bool :=
  Pg.bpchar_eq (token r) t.

(** [WHERE token = $1 AND expires > current_timestamp] *)
Definition token_is_live (t : str) (now : Z) (r : session) : bool :=
  token_is t r && (now <? expires r).

(** [WHERE expires <= current_timestamp] *)
Definition is_expired (now : Z) (r : session) : bool :=
  expires r <=? now.

(** [INSERT INTO sessions (token, login, role_id, expires)
     VALUES ($1, $2, $3, $4);]
    [None] when the backend rejects a value; [slot] is the place the
    backend gives the row in the order of a scan. *)
Definition insert_session (slot : nat) (t l : str) (r e : Z) (db : database)
  : option (unit * database) :=
  match Pg.int4 (sessions_id_seq db),
        Pg.bpchar 64 t, Pg.bpchar 64 l, Pg.int4 r with
  | Some i, Some t', Some l', Some r' =>
      let row := {| id := i; token := t'; login := l'; role_id := r';
                    expires := Pg.timestamp0 e |} in
      Some (tt, {| sessions := insert_at slot row (sessions db);
                   sessions_id_seq := sessions_id_seq db + 1 |})
  | _, _, _, _ => None
  end.

(** [SELECT exists (SELECT 1 FROM sessions
     WHERE token = $1 AND expires > current_timestamp LIMIT 1);]
    One row of one column; [None] when the backend rejects the
    parameter. *)
Definition select_exists_live (t : str) (now : Z) (db : database)
  : option (list (list bool) * database) :=
  match Pg.text_param t with
  | Some t' => Some ([[existsb (token_is_live t' now) (sessions db)]], db)
  | None => None
  end.

(** [DELETE FROM sessions WHERE expires <= current_timestamp;] *)
Definition delete_expired (now : Z) (db : database)
  : option (unit * database) :=
  Some (tt, {| sessions := filter (fun r => negb (is_expired now r))
                                  (sessions db);
               sessions_id_seq := sessions_id_seq db |}).

(** [SELECT login FROM sessions WHERE token = $1 LIMIT 1;]
    [None] when the backend rejects the parameter. *)
Definition select_login (t : str) (db : database)
  : option (list (list str) * database) :=
  match Pg.text_param t with
  | Some t' => Some (firstn 1 (map (fun r => [login r])
                                   (filter (token_is t') (sessions db))), db)
  | None => None
  end.

(** [SELECT role_id FROM sessions WHERE token = $1 LIMIT 1;]
    [None] when the backend rejects the parameter. *)
Definition select_role_id (t : str) (db : database)
  : option (list (list Z) * database) :=
  match Pg.text_param t with
  | Some t' => Some (firstn 1 (map (fun r => [role_id r])
                                   (filter (token_is t') (sessions db))), db)
  | None => None
  end.

(** [DELETE FROM sessions WHERE token = $1;]
    [None] when the backend rejects the parameter. *)
Definition delete_token (t : str) (db : database)
  : option (unit * database) :=
  match Pg.text_param t with
  | Some t' => Some (tt, {| sessions := filter (fun r => negb (token_is t' r))
                                               (sessions db);
                            sessions_id_seq := sessions_id_seq db |})
  | None => None
  end.

End Sql.

(** ** The module's state and its monad *)

Import Py.

(** The global [DB_CONN]: [None] until [configure_db] has run, afterwards
    the connection, which stands for the database it talks to. *)
Definition connection : Type := option database.

(** A computation reads and updates [DB_CONN] and returns or raises. *)
Definition M (A : Type) : Type := connection -> result (A * connection).

Definition ret {A : Type} (a : A) : M A := fun c => Ok (a, c).

Definition bind {A B : Type} (m : M A) (k : A -> M B) : M B :=
  fun c => match m c with
           | Ok (a, c') => k a c'
           | Raise e => Raise e
           end.

Definition lift {A : Type} (r : result A) : M A :=
  fun c => match r with
           | Ok a => Ok (a, c)
           | Raise e => Raise e
           end.

Notation "x <- m ;; k" := (bind m (fun x => k))
  (at level 61, m at next level, right associativity).
Notation "m ;; k" := (bind m (fun _ => k))
  (at level 61, right associativity).

(** [assert DB_CONN] *)
Definition assert_DB_CONN : M unit :=
  fun c => match c with
           | Some _ => Ok (tt, c)
           | None => Raise AssertionError
           end.

(** Running a prepared statement (or [DB_CONN.execute]) on the
    connection. *)
Definition run_statement {A : Type}
  (stmt : database -> option (A * database)) : M A :=
  fun c => match c with
           | Some db => match stmt db with
                        | Some (a, db') => Ok (a, Some db')
                        | None => Raise DatabaseError
                        end
           | None => Raise AttributeError
           end.

(** ** The module's functions *)

(** [TTL = datetime.timedelta(hours=12)], in microseconds. *)
Definition TTL : Z := 12 * 3600 * 1000000.

(** The system's random source: the bytes it hands out, in order. *)
Definition entropy : Type := nat -> Byte.byte.

(** [secrets.token_hex(nbytes)] *)
Definition token_hex (rng : entropy) (nbytes : nat) : str :=
  hex (map rng (seq 0 nbytes)).

Definition _generate_token (rng : entropy) : str := token_hex rng 32.

(** [rng], [now] and [slot] are what the call meets outside itself:
    the bytes of the random source, the reading of the clock and the
    place the backend gives the new row. *)
Definition store_user_auth (rng : entropy) (now : Z) (slot : nat)
  (login : str) (role_id : Z) : M str :=
  assert_DB_CONN ;;
  let token := _generate_token rng in
  let expires := now + TTL in
  run_statement (Sql.insert_session slot token login role_id expires) ;;
  ret token.

(** [now_select] and [now_delete] are what [current_timestamp] reads in
    the [SELECT] and in the [DELETE]. *)
Definition is_valid_token (now_select now_delete : Z) (token : str)
  : M bool :=
  assert_DB_CONN ;;
  res <- run_statement (Sql.select_exists_live token now_select) ;;
  run_statement (Sql.delete_expired now_delete) ;;
  row <- lift (getitem res 0) ;;
  lift (getitem row 0).

Definition get_login_by_token (token : str) : M str :=
  assert_DB_CONN ;;
  res <- run_statement (Sql.select_login token) ;;
  row <- lift (getitem res 0) ;;
  v <- lift (getitem row 0) ;;
  ret (strip v).

Definition get_role_id_by_token (token : str) : M Z :=
  assert_DB_CONN ;;
  res <- run_statement (Sql.select_role_id token) ;;
  row <- lift (getitem res 0) ;;
  lift (getitem row 0).

Definition remove_token (token : str) : M unit :=
  assert_DB_CONN ;;
  run_statement (Sql.delete_token token) ;;
  ret tt.

(** ** Histories of calls *)

(** One call of the module's interface, with the readings of the clock
    and of the random source it makes and the place its row is given. *)
Inductive call : Type :=
| Issue (rng : entropy) (now : Z) (slot : nat) (login : str) (role_id : Z)
| IsValid (now_select now_delete : Z) (token : str)
| GetLogin (token : str)
| GetRoleId (token : str)
| Revoke (token : str).

Definition run (c : call) : M unit :=
  match c with
  | Issue rng now slot l r => store_user_auth rng now slot l r ;; ret tt
  | IsValid ns nd t => is_valid_token ns nd t ;; ret tt
  | GetLogin t => get_login_by_token t ;; ret tt
  | GetRoleId t => get_role_id_by_token t ;; ret tt
  | Revoke t => remove_token t ;; ret tt
  end.

(** The database before and after one call.  A call that raises leaves
    the rows of [sessions] as they were. *)
Inductive step (db : database) (c : call) (db' : database) : Prop :=
| step_returns :
    run c (Some db) = Ok (tt, Some db') -> step db c db'
| step_raises (e : exn) :
    run c (Some db) = Raise e -> sessions db' = sessions db -> step db c db'.

Inductive steps : database -> list call -> database -> Prop :=
| steps_nil db : steps db [] db
| steps_cons db c db' cs db'' :
    step db c db' -> steps db' cs db'' -> steps db (c :: cs) db''.

(** What a history between the issue of token [t] and a later moment
    [now] may contain if the session of [t] is to be left alone: no
    revocation of [t], no second draw of [t] from the random source, and
    no sweep dated after [now] (the clock does not run backwards). *)
Definition leaves_alone (t : str) (now : Z) (c : call) : Prop :=
  match c with
  | Issue rng _ _ _ _ => Pg.bpchar_eq (_generate_token rng) t = false
  | IsValid _ nd _ => nd <= now
  | Revoke t' => Pg.bpchar_eq t t' = false
  | GetLogin _ | GetRoleId _ => True
  end.

(** No row of [db] carries token [t]. *)
Definition fresh (t : str) (db : database) : Prop :=
  forall r, In r (sessions db) -> Sql.token_is t r = false.

(** Every [CHAR(64)] cell of the table is 64 characters wide. *)
Definition char64_cells (db : database) : Prop :=
  forall r, In r (sessions db) ->
    length (token r) = 64%nat /\ length (login r) = 64%nat.

(** The same table with other expiry times. *)
Definition with_expires (f : session -> Z) (db : database) : database :=
  {| sessions := map (fun r => {| id := id r; token := token r;
                                  login := login r; role_id := role_id r;
                                  expires := f r |}) (sessions db);
     sessions_id_seq := sessions_id_seq db |}.

(** ** Predicates on the table *)

(** The row [store_user_auth] writes when the backend stores the login
    as [l']. *)
Definition issued_row (rng : entropy) (now : Z) (l' : str) (r : Z)
  (db : database) : session :=
  {| id := sessions_id_seq db; token := _generate_token rng; login := l';
     role_id := r; expires := Pg.timestamp0 (now + TTL) |}.

(** The session of token [t] is kept in the row [r0]: every row that
    carries [t] satisfies [P], and [r0] is in the table if it expires
    after [now]. *)
Definition session_kept (P : session -> Prop) (t : str) (r0 : session)
  (now : Z) (db : database) : Prop :=
  (forall r, In r (sessions db) -> Sql.token_is t r = true -> P r) /\
  (now < expires r0 -> In r0 (sessions db)).


(** ** The specification's wording, for comparison *)

(** "Trims any fixed-width padding from the stored value": the blanks
    that fill a [CHAR(64)] cell are removed, nothing else. *)
Definition trim_padding (s : str) : str := dropwhile_end is_blank s.

(** [issue] as the specification words it: one new row with the given
    login and role, the returned token, and [expires = now + 12 hours]. *)
Definition issue_as_specified (rng : entropy) (now : Z) (slot : nat)
  (l : str) (r : Z) (db : database) : Prop :=
  exists t db' row,
    store_user_auth rng now slot l r (Some db) = Ok (t, Some db') /\
    sessions db' = insert_at slot row (sessions db) /\
    Pg.bpchar_eq (login row) l = true /\ role_id row = r /\
    token row = t /\ expires row = now + TTL.


(** The lookups as the specification words them, on the row the scan
    finds for [t]. *)
Definition lookup_as_specified (t : str) (db : database) : Prop :=
  forall r, find (Sql.token_is t) (sessions db) = Some r ->
    get_login_by_token t (Some db) = Ok (trim_padding (login r), Some db) /\
    get_role_id_by_token t (Some db) = Ok (role_id r, Some db).

(** The round trip as the specification words it, for a check dated
    [now'] before the expiry. *)
Definition round_trip_as_specified (rng : entropy) (now : Z) (slot : nat)
  (l : str) (r : Z) (db : database) (now' : Z) : Prop :=
  forall t c, store_user_auth rng now slot l r (Some db) = Ok (t, c) ->
    now' < now + TTL ->
    get_login_by_token t c = Ok (l, c) /\
    get_role_id_by_token t c = Ok (r, c) /\
    exists c', is_valid_token now' now' t c = Ok (true, c') /\
      exists c'', remove_token t c' = Ok (tt, c'') /\
        exists c''', is_valid_token now' now' t c'' = Ok (false, c''').

(** [isValid] as the specification words it: it answers, and [true]
    exactly when a row with this exact token value has not expired. *)
Definition valid_as_specified (t : str) (db : database) (now : Z) : Prop :=
  exists b c,
    is_valid_token now now t (Some db) = Ok (b, c) /\
    (b = true <->
       exists r, In r (sessions db) /\ token r = t /\ now < expires r).

(** The sweep as the specification words it: every call sweeps; no row
    that has expired remains, every row that has not survives, and a
    token found valid keeps a row. *)
Definition sweep_as_specified (t : str) (db : database) (ns nd : Z) : Prop :=
  exists b db',
    is_valid_token ns nd t (Some db) = Ok (b, Some db') /\
    (forall r, In r (sessions db') -> nd < expires r) /\
    (forall r, In r (sessions db) -> nd < expires r -> In r (sessions db')) /\
    (b = true -> exists r, In r (sessions db') /\ Sql.token_is t r = true).

(** [revoke] as the specification words it: it returns on every token,
    a second call changes nothing, and a row whose token differs from
    the argument stays. *)
Definition revoke_as_specified (t : str) (db : database) : Prop :=
  exists db',
    remove_token t (Some db) = Ok (tt, Some db') /\
    remove_token t (Some db') = Ok (tt, Some db') /\
    forall r, In r (sessions db) -> token r <> t -> In r (sessions db').

(** The lookups of an absent token as the specification words them:
    the failure is the one of the empty result. *)
Definition absent_as_specified (t : str) (db : database) : Prop :=
  (forall r, In r (sessions db) -> Sql.token_is t r = false) ->
  get_login_by_token t (Some db) = Raise IndexError /\
  get_role_id_by_token t (Some db) = Raise IndexError.


(** ** Sample data *)

(** A text with U+0000 in it. *)
Definition with_nul : str := lit "al" ++ zero :: lit "ice".

Definition sample_rng : entropy :=
  fun n => match Byte.of_N (N.of_nat (n * 37 + 11) mod 256) with
           | Some b => b
           | None => Byte.x00
           end.

Definition other_rng : entropy :=
  fun n => match Byte.of_N (N.of_nat (n * 5 + 3) mod 256) with
           | Some b => b
           | None => Byte.x00
           end.

Definition empty_db : database := {| sessions := []; sessions_id_seq := 1 |}.

(** An empty table whose sequence has run through the [INTEGER] range. *)
Definition spent_db : database :=
  {| sessions := []; sessions_id_seq := 2 ^ 31 |}.

(** A table with one session of "alice" and, twice, a token of " bob"
    (leading blank), the second copy long expired. *)
Definition sample_db : database :=
  {| sessions :=
       [ {| id := 1; token := _generate_token sample_rng;
            login := lit "alice" ++ Pg.blanks 59; role_id := 2;
            expires := 43200000000 |};
         {| id := 2; token := _generate_token other_rng;
            login := lit " bob" ++ Pg.blanks 60; role_id := 1;
            expires := 50000000000 |};
         {| id := 3; token := _generate_token other_rng;
            login := lit " bob" ++ Pg.blanks 60; role_id := 1;
            expires := 1000000 |} ];
     sessions_id_seq := 4 |}.

Definition sample_row : session :=
  {| id := 0; token := []; login := []; role_id := 0; expires := 0 |}.

(** A session of "alice" issued on the empty table, and a history that
    leaves it alone: a second issue, a lookup that raises, a check and
    the revocation of the second token. *)
Definition sample_issued : database :=
  {| sessions := [issued_row sample_rng 847000000700000
                    (lit "alice" ++ Pg.blanks 59) 2 empty_db];
     sessions_id_seq := 2 |}.

Definition sample_both : database :=
  {| sessions := sessions sample_issued ++
                 [issued_row other_rng 847000001000000
                    (lit "bob" ++ Pg.blanks 61) 1 sample_issued];
     sessions_id_seq := 3 |}.

Definition sample_later : database :=
  {| sessions := sessions sample_issued; sessions_id_seq := 3 |}.




Definition sample_history : list call :=
  [ Issue other_rng 847000001000000 1 (lit "bob") 1;
    GetLogin (lit "nobody");
    IsValid 847000002000000 847000003000000 (_generate_token other_rng);
    Revoke (_generate_token other_rng) ].

(** ** Further predicates on calls and tables *)


(** One of [0-9a-f]. *)
Definition is_hexdigit (c : ascii) : bool :=
  let n := nat_of_ascii c in
  ((48 <=? n) && (n <=? 57))%nat || ((97 <=? n) && (n <=? 102))%nat.

(** The value of a hexadecimal digit. *)
Definition hexval (c : ascii) : N :=
  let n := N_of_ascii c in
  if (n <? 58)%N then (n - 48)%N else (n - 87)%N.

(** The [INSERT] of [store_user_auth] is accepted: the login holds no
    U+0000, what lies beyond its 64th character is blank, and the role
    and the next [id] are in the range of [INTEGER]. *)
Definition fits_int4 (z : Z) : bool := (- 2 ^ 31 <=? z) && (z <? 2 ^ 31).

Definition accepted (l : str) (r : Z) (db : database) : bool :=
  Pg.text_ok l && forallb is_blank (skipn 64 l) && fits_int4 r
  && fits_int4 (sessions_id_seq db).

(** A row as the column types of [CREATE TABLE sessions] allow it. *)
Definition row_ok (r : session) : Prop :=
  length (token r) = 64%nat /\ length (login r) = 64%nat /\
  - 2 ^ 31 <= role_id r < 2 ^ 31 /\ - 2 ^ 31 <= id r < 2 ^ 31 /\
  expires r mod 1000000 = 0.

Definition table_ok (db : database) : Prop :=
  forall r, In r (sessions db) -> row_ok r.

(** The keys of the rows are distinct and below the next value of the
    sequence. *)
Definition ids_ok (db : database) : Prop :=
  NoDup (map id (sessions db)) /\
  forall r, In r (sessions db) -> id r < sessions_id_seq db.

(** No leading character of [s] satisfies [p]. *)
Definition starts_clean (p : ascii -> bool) (s : str) : Prop :=
  match s with
  | [] => True
  | c :: _ => p c = false
  end.


(** Row [r] is what call [c] asked the backend to store. *)
Definition issued_by (c : call) (r : session) : Prop :=
  match c with
  | Issue rng now _ l rl =>
      token r = _generate_token rng /\ Pg.bpchar 64 l = Some (login r) /\
      role_id r = rl /\ expires r = Pg.timestamp0 (now + TTL)
  | _ => False
  end.

(** A table in which the only row of "alice" expires between two
    readings of the clock. *)
Definition sample_racy : database :=
  {| sessions :=
       [ {| id := 1; token := _generate_token sample_rng;
            login := lit "alice" ++ Pg.blanks 59; role_id := 2;
            expires := 847043201000000 |} ];
     sessions_id_seq := 2 |}.

(** * Properties *)

(** ** Strings and column types *)

Lemma str_eqb_eq (a b : str) : str_eqb a b = true <-> a = b.
Proof.
  revert b; induction a as [|x a IH]; intros [|y b]; simpl;
    try (split; [discriminate | congruence]); try tauto.
  rewrite andb_true_iff, Ascii.eqb_eq, IH.
  split; [intros [-> ->]; reflexivity | intros E; inversion E; auto].
Qed.

Lemma str_eqb_refl (a : str) : str_eqb a a = true.
Proof. now apply str_eqb_eq. Qed.

Lemma dropwhile_app_all {A : Type} (p : A -> bool) (l s : list A) :
  forallb p l = true -> dropwhile p (l ++ s) = dropwhile p s.
Proof.
  induction l as [|x l IH]; simpl; [reflexivity|].
  rewrite andb_true_iff. intros [-> Hl]. auto.
Qed.

Lemma forallb_rev {A : Type} (p : A -> bool) (l : list A) :
  forallb p (rev l) = forallb p l.
Proof.
  induction l as [|x l IH]; simpl; [reflexivity|].
  rewrite forallb_app, IH. simpl. rewrite andb_true_r. apply andb_comm.
Qed.

Lemma dropwhile_end_app_all {A : Type} (p : A -> bool) (s l : list A) :
  forallb p l = true -> dropwhile_end p (s ++ l) = dropwhile_end p s.
Proof.
  intros Hl. unfold dropwhile_end. rewrite rev_app_distr.
  rewrite dropwhile_app_all; [reflexivity|]. now rewrite forallb_rev.
Qed.

Lemma is_blank_isspace (c : ascii) : is_blank c = true -> isspace c = true.
Proof.
  unfold is_blank. rewrite Ascii.eqb_eq. intros ->. reflexivity.
Qed.

Lemma forallb_blanks (p : ascii -> bool) (n : nat) :
  p blank = true -> forallb p (Pg.blanks n) = true.
Proof.
  intros Hp. unfold Pg.blanks.
  induction n as [|n IH]; simpl; [reflexivity|]. now rewrite Hp, IH.
Qed.

Lemma forallb_impl {A : Type} (p q : A -> bool) (l : list A) :
  (forall x, p x = true -> q x = true) ->
  forallb p l = true -> forallb q l = true.
Proof.
  intros Hpq. rewrite !forallb_forall. auto.
Qed.

Lemma text_ok_app (a b : str) :
  Pg.text_ok (a ++ b) = Pg.text_ok a && Pg.text_ok b.
Proof. apply forallb_app. Qed.

Lemma text_ok_blanks (n : nat) : Pg.text_ok (Pg.blanks n) = true.
Proof. now apply forallb_blanks. Qed.

Lemma text_ok_firstn (n : nat) (s : str) :
  Pg.text_ok s = true -> Pg.text_ok (firstn n s) = true.
Proof.
  intros Hs. rewrite <- (firstn_skipn n s), text_ok_app in Hs.
  now apply andb_true_iff in Hs as [Hs _].
Qed.

Lemma text_ok_hex (bs : list Byte.byte) : Pg.text_ok (hex bs) = true.
Proof.
  induction bs as [|b bs IH]; [reflexivity|].
  change (Pg.text_ok (hex (b :: bs)))
    with (negb (Ascii.eqb (hexdigit (Byte.to_N b / 16)) zero)
          && (negb (Ascii.eqb (hexdigit (Byte.to_N b mod 16)) zero)
              && Pg.text_ok (hex bs))).
  rewrite IH. destruct b; reflexivity.
Qed.

(** Blanks at the end do not make a text acceptable or not. *)
Lemma text_ok_trailing (s pad : str) :
  forallb is_blank pad = true -> Pg.text_ok (s ++ pad) = Pg.text_ok s.
Proof.
  intros Hpad. rewrite text_ok_app.
  replace (Pg.text_ok pad) with true; [apply andb_true_r|].
  symmetry. apply (forallb_impl is_blank); [|exact Hpad].
  intros c Hc. apply Ascii.eqb_eq in Hc. now subst c.
Qed.

(** A value accepted by [CHAR(n)] differs from the stored one by
    trailing blanks only. *)
Lemma bpchar_trailing (n : nat) (s s' : str) :
  Pg.bpchar n s = Some s' ->
  exists pad, forallb is_blank pad = true /\
              (s' = s ++ pad \/ s = s' ++ pad).
Proof.
  unfold Pg.bpchar. destruct (Pg.text_ok s); simpl; [|discriminate].
  destruct (length s <=? n)%nat.
  - intros [= <-]. exists (Pg.blanks (n - length s)). split; [|now left].
    now apply forallb_blanks.
  - destruct (forallb is_blank (skipn n s)) eqn:Hcut; [|discriminate].
    intros [= <-]. exists (skipn n s). split; [assumption|right].
    symmetry. apply firstn_skipn.
Qed.

Lemma bpchar_length (n : nat) (s s' : str) :
  Pg.bpchar n s = Some s' -> length s' = n.
Proof.
  unfold Pg.bpchar. destruct (Pg.text_ok s); simpl; [|discriminate].
  destruct (length s <=? n)%nat eqn:Hle.
  - intros [= <-]. apply Nat.leb_le in Hle.
    unfold Pg.blanks. rewrite length_app, repeat_length. lia.
  - destruct (forallb is_blank (skipn n s)); [|discriminate].
    intros [= <-]. apply Nat.leb_gt in Hle. rewrite length_firstn. lia.
Qed.

Lemma bpchar_exact (n : nat) (s : str) :
  Pg.text_ok s = true -> length s = n -> Pg.bpchar n s = Some s.
Proof.
  intros Hs <-. unfold Pg.bpchar. rewrite Hs, Nat.leb_refl, Nat.sub_diag.
  simpl. now rewrite app_nil_r.
Qed.

(** What a [CHAR(n)] column accepts and what it stores hold no U+0000. *)
Lemma bpchar_text_ok (n : nat) (s s' : str) :
  Pg.bpchar n s = Some s' -> Pg.text_ok s = true /\ Pg.text_ok s' = true.
Proof.
  intros H. assert (Hs : Pg.text_ok s = true).
  { unfold Pg.bpchar in H. now destruct (Pg.text_ok s). }
  split; [exact Hs|].
  destruct (bpchar_trailing _ _ _ H) as (pad & Hpad & [-> | ->]).
  - now rewrite text_ok_trailing.
  - now rewrite text_ok_trailing in Hs.
Qed.

Lemma bpchar_eq_stored (n : nat) (s s' : str) :
  Pg.bpchar n s = Some s' -> Pg.bpchar_eq s' s = true.
Proof.
  intros H. destruct (bpchar_trailing _ _ _ H) as (pad & Hpad & [-> | ->]);
    unfold Pg.bpchar_eq; rewrite dropwhile_end_app_all by assumption;
    apply str_eqb_refl.
Qed.

Lemma strip_stored (n : nat) (s s' : str) :
  Pg.bpchar n s = Some s' -> strip s' = strip s.
Proof.
  intros H. destruct (bpchar_trailing _ _ _ H) as (pad & Hpad & E).
  assert (Hsp : forallb isspace pad = true)
    by (apply (forallb_impl is_blank); auto using is_blank_isspace).
  unfold strip. destruct E as [-> | ->];
    now rewrite dropwhile_end_app_all.
Qed.

Lemma bpchar_eq_refl (a : str) : Pg.bpchar_eq a a = true.
Proof. apply str_eqb_refl. Qed.

(** Two values that are equal at type [CHAR] match the same rows. *)
Lemma bpchar_eq_trans_l (a b c : str) :
  Pg.bpchar_eq a b = true -> Pg.bpchar_eq a c = Pg.bpchar_eq b c.
Proof.
  unfold Pg.bpchar_eq. intros E. apply str_eqb_eq in E. now rewrite E.
Qed.

Lemma hex_length (bs : list Byte.byte) : length (hex bs) = (2 * length bs)%nat.
Proof. induction bs as [|b bs IH]; simpl; [reflexivity|]. rewrite IH. lia. Qed.

Lemma generate_token_length (rng : entropy) :
  length (_generate_token rng) = 64%nat.
Proof.
  unfold _generate_token, token_hex.
  now rewrite hex_length, length_map, length_seq.
Qed.

Lemma generate_token_text_ok (rng : entropy) :
  Pg.text_ok (_generate_token rng) = true.
Proof. apply text_ok_hex. Qed.

Lemma generate_token_stored (rng : entropy) :
  Pg.bpchar 64 (_generate_token rng) = Some (_generate_token rng).
Proof.
  apply bpchar_exact;
    [apply generate_token_text_ok | apply generate_token_length].
Qed.

Lemma timestamp0_near (t : Z) :
  t - 500000 <= Pg.timestamp0 t <= t + 500000.
Proof.
  unfold Pg.timestamp0. destruct (0 <=? t) eqn:Ht.
  - apply Z.leb_le in Ht.
    pose proof (Z.div_mod (t + 500000) 1000000 ltac:(lia)).
    pose proof (Z.mod_pos_bound (t + 500000) 1000000 ltac:(lia)). lia.
  - apply Z.leb_gt in Ht.
    pose proof (Z.div_mod (- t + 500000) 1000000 ltac:(lia)).
    pose proof (Z.mod_pos_bound (- t + 500000) 1000000 ltac:(lia)). lia.
Qed.

Lemma timestamp0_whole (t : Z) :
  t mod 1000000 = 0 -> Pg.timestamp0 t = t.
Proof.
  intros Hw. unfold Pg.timestamp0.
  apply Z.mod_divide in Hw; [|lia]. destruct Hw as [k ->].
  destruct (0 <=? k * 1000000) eqn:Ht.
  - replace (k * 1000000 + 500000) with (500000 + k * 1000000) by lia.
    rewrite Z.div_add by lia. rewrite (Z.div_small 500000) by lia. lia.
  - replace (- (k * 1000000) + 500000) with (500000 + (- k) * 1000000) by lia.
    rewrite Z.div_add by lia. rewrite (Z.div_small 500000) by lia. lia.
Qed.


(** ** What each function computes *)

Lemma int4_range (z : Z) : - 2 ^ 31 <= z < 2 ^ 31 -> Pg.int4 z = Some z.
Proof.
  intros [Hlo Hhi]. unfold Pg.int4.
  apply Z.leb_le in Hlo. apply Z.ltb_lt in Hhi. now rewrite Hlo, Hhi.
Qed.

Lemma int4_some (z z' : Z) :
  Pg.int4 z = Some z' -> z' = z /\ - 2 ^ 31 <= z < 2 ^ 31.
Proof.
  unfold Pg.int4.
  destruct (- 2 ^ 31 <=? z) eqn:Hlo; destruct (z <? 2 ^ 31) eqn:Hhi;
    simpl; try discriminate.
  intros [= <-]. apply Z.leb_le in Hlo. apply Z.ltb_lt in Hhi. auto.
Qed.

Lemma store_user_auth_accepts rng now slot l l' r db :
  Pg.bpchar 64 l = Some l' ->
  - 2 ^ 31 <= r < 2 ^ 31 ->
  - 2 ^ 31 <= sessions_id_seq db < 2 ^ 31 ->
  store_user_auth rng now slot l r (Some db) =
    Ok (_generate_token rng,
        Some {| sessions := insert_at slot (issued_row rng now l' r db)
                                      (sessions db);
                sessions_id_seq := sessions_id_seq db + 1 |}).
Proof.
  intros Hl Hr Hseq.
  unfold store_user_auth, bind, assert_DB_CONN, run_statement, ret,
    Sql.insert_session.
  rewrite (int4_range _ Hseq), (int4_range _ Hr), Hl.
  now rewrite generate_token_stored.
Qed.

Lemma store_user_auth_returns rng now slot l r db t c :
  store_user_auth rng now slot l r (Some db) = Ok (t, c) ->
  exists l', Pg.bpchar 64 l = Some l' /\
    - 2 ^ 31 <= r < 2 ^ 31 /\
    - 2 ^ 31 <= sessions_id_seq db < 2 ^ 31 /\
    t = _generate_token rng /\
    c = Some {| sessions := insert_at slot (issued_row rng now l' r db)
                                      (sessions db);
                sessions_id_seq := sessions_id_seq db + 1 |}.
Proof.
  unfold store_user_auth, bind, assert_DB_CONN, run_statement, ret,
    Sql.insert_session.
  rewrite generate_token_stored.
  destruct (Pg.int4 (sessions_id_seq db)) as [i|] eqn:Hi; [|discriminate].
  destruct (Pg.bpchar 64 l) as [l'|] eqn:Hl; [|discriminate].
  destruct (Pg.int4 r) as [r'|] eqn:Hr; [|discriminate].
  apply int4_some in Hi as [-> Hi]. apply int4_some in Hr as [-> Hr].
  intros [= <- <-]. exists l'. repeat split; auto; lia.
Qed.

(** The new row is in the table, and the old rows are, wherever the new
    one is put. *)
Lemma in_insert_at {A : Type} (slot : nat) (x y : A) (l : list A) :
  In y (insert_at slot x l) <-> y = x \/ In y l.
Proof.
  unfold insert_at. rewrite <- (firstn_skipn slot l) at 3.
  rewrite !in_app_iff. simpl. intuition congruence.
Qed.

Lemma is_valid_token_eq ns nd t db :
  Pg.text_ok t = true ->
  is_valid_token ns nd t (Some db) =
    Ok (existsb (Sql.token_is_live t ns) (sessions db),
        Some {| sessions := filter (fun r => negb (Sql.is_expired nd r))
                                   (sessions db);
                sessions_id_seq := sessions_id_seq db |}).
Proof.
  intros Ht.
  unfold is_valid_token, bind, assert_DB_CONN, run_statement,
    Sql.select_exists_live, Pg.text_param.
  now rewrite Ht.
Qed.

Lemma remove_token_eq t db :
  Pg.text_ok t = true ->
  remove_token t (Some db) =
    Ok (tt, Some {| sessions := filter (fun r => negb (Sql.token_is t r))
                                       (sessions db);
                    sessions_id_seq := sessions_id_seq db |}).
Proof.
  intros Ht.
  unfold remove_token, bind, assert_DB_CONN, run_statement,
    Sql.delete_token, Pg.text_param.
  now rewrite Ht.
Qed.

(** [LIMIT 1] after [WHERE] is the first row the scan finds. *)
Lemma limit_1_find {A B : Type} (p : A -> bool) (f : A -> B) (l : list A) :
  firstn 1 (map f (filter p l)) =
    match find p l with Some a => [f a] | None => [] end.
Proof.
  induction l as [|a l IH]; simpl; [reflexivity|].
  destruct (p a); simpl; [reflexivity | exact IH].
Qed.

Lemma get_login_by_token_eq t db :
  Pg.text_ok t = true ->
  get_login_by_token t (Some db) =
    match find (Sql.token_is t) (sessions db) with
    | Some r => Ok (strip (login r), Some db)
    | None => Raise IndexError
    end.
Proof.
  intros Ht.
  unfold get_login_by_token, bind, assert_DB_CONN, run_statement,
    Sql.select_login, Pg.text_param.
  rewrite Ht, limit_1_find. now destruct (find _ _).
Qed.

Lemma get_role_id_by_token_eq t db :
  Pg.text_ok t = true ->
  get_role_id_by_token t (Some db) =
    match find (Sql.token_is t) (sessions db) with
    | Some r => Ok (role_id r, Some db)
    | None => Raise IndexError
    end.
Proof.
  intros Ht.
  unfold get_role_id_by_token, bind, assert_DB_CONN, run_statement,
    Sql.select_role_id, Pg.text_param.
  rewrite Ht, limit_1_find. now destruct (find _ _).
Qed.

(** A token with U+0000 makes each of the four statements fail in the
    backend. *)
Lemma nul_token_raises t ns nd db :
  Pg.text_ok t = false ->
  is_valid_token ns nd t (Some db) = Raise DatabaseError /\
  get_login_by_token t (Some db) = Raise DatabaseError /\
  get_role_id_by_token t (Some db) = Raise DatabaseError /\
  remove_token t (Some db) = Raise DatabaseError.
Proof.
  intros Ht.
  unfold is_valid_token, get_login_by_token, get_role_id_by_token,
    remove_token, bind, assert_DB_CONN, run_statement,
    Sql.select_exists_live, Sql.select_login, Sql.select_role_id,
    Sql.delete_token, Pg.text_param.
  rewrite Ht. auto.
Qed.

(** So a call that has not raised [DatabaseError] had a token without
    U+0000. *)
Lemma is_valid_token_text_ok t ns nd db x :
  is_valid_token ns nd t (Some db) = Ok x -> Pg.text_ok t = true.
Proof.
  destruct (Pg.text_ok t) eqn:Ht; [reflexivity|].
  destruct (nul_token_raises t ns nd db Ht) as (E & _). congruence.
Qed.

Lemma get_login_by_token_text_ok t db x :
  get_login_by_token t (Some db) = Ok x -> Pg.text_ok t = true.
Proof.
  destruct (Pg.text_ok t) eqn:Ht; [reflexivity|].
  destruct (nul_token_raises t 0 0 db Ht) as (_ & E & _). congruence.
Qed.

Lemma get_role_id_by_token_text_ok t db x :
  get_role_id_by_token t (Some db) = Ok x -> Pg.text_ok t = true.
Proof.
  destruct (Pg.text_ok t) eqn:Ht; [reflexivity|].
  destruct (nul_token_raises t 0 0 db Ht) as (_ & _ & E & _). congruence.
Qed.

Lemma remove_token_text_ok t db x :
  remove_token t (Some db) = Ok x -> Pg.text_ok t = true.
Proof.
  destruct (Pg.text_ok t) eqn:Ht; [reflexivity|].
  destruct (nul_token_raises t 0 0 db Ht) as (_ & _ & _ & E). congruence.
Qed.

Lemma is_valid_token_returns t ns nd db b c :
  is_valid_token ns nd t (Some db) = Ok (b, c) ->
  Pg.text_ok t = true /\
  b = existsb (Sql.token_is_live t ns) (sessions db) /\
  c = Some {| sessions := filter (fun r => negb (Sql.is_expired nd r))
                                 (sessions db);
              sessions_id_seq := sessions_id_seq db |}.
Proof.
  intros H. pose proof (is_valid_token_text_ok _ _ _ _ _ H) as Ht.
  rewrite (is_valid_token_eq _ _ _ _ Ht) in H. injection H as <- <-. auto.
Qed.

Lemma remove_token_returns t db u c :
  remove_token t (Some db) = Ok (u, c) ->
  Pg.text_ok t = true /\
  c = Some {| sessions := filter (fun r => negb (Sql.token_is t r))
                                 (sessions db);
              sessions_id_seq := sessions_id_seq db |}.
Proof.
  intros H. pose proof (remove_token_text_ok _ _ _ H) as Ht.
  rewrite (remove_token_eq _ _ Ht) in H. injection H as _ <-. auto.
Qed.

Lemma get_login_by_token_returns t db v c :
  get_login_by_token t (Some db) = Ok (v, c) ->
  Pg.text_ok t = true /\ c = Some db /\
  exists r, find (Sql.token_is t) (sessions db) = Some r /\
            v = strip (login r).
Proof.
  intros H. pose proof (get_login_by_token_text_ok _ _ _ H) as Ht.
  rewrite (get_login_by_token_eq _ _ Ht) in H.
  destruct (find _ _) as [r|]; [|discriminate].
  injection H as <- <-. eauto.
Qed.

Lemma get_role_id_by_token_returns t db v c :
  get_role_id_by_token t (Some db) = Ok (v, c) ->
  Pg.text_ok t = true /\ c = Some db /\
  exists r, find (Sql.token_is t) (sessions db) = Some r /\
            v = role_id r.
Proof.
  intros H. pose proof (get_role_id_by_token_text_ok _ _ _ H) as Ht.
  rewrite (get_role_id_by_token_eq _ _ Ht) in H.
  destruct (find _ _) as [r|]; [|discriminate].
  injection H as <- <-. eauto.
Qed.

Lemma find_none_iff {A : Type} (p : A -> bool) (l : list A) :
  find p l = None <-> forall a, In a l -> p a = false.
Proof.
  split; [apply find_none|].
  induction l as [|a l IH]; simpl; [reflexivity|]. intros H.
  rewrite (H a) by now left. apply IH. intros b Hb. apply H. now right.
Qed.

(** When every row carrying [t] is the row [r0] and [r0] is in the
    table, the scan finds [r0]. *)
Lemma find_only {A : Type} (p : A -> bool) (l : list A) (r0 : A) :
  In r0 l -> p r0 = true -> (forall a, In a l -> p a = true -> a = r0) ->
  find p l = Some r0.
Proof.
  intros Hin Hp Honly. destruct (find p l) as [a|] eqn:Hf.
  - apply find_some in Hf as [Ha Hpa]. f_equal. auto.
  - rewrite (find_none _ _ Hf _ Hin) in Hp. discriminate.
Qed.


(** ** Equality at type [CHAR] on cells of equal width *)

Lemma dropwhile_blank_split (s : str) :
  exists k, s = repeat blank k ++ dropwhile is_blank s.
Proof.
  induction s as [|c s [k IH]]; simpl.
  - now exists 0%nat.
  - destruct (is_blank c) eqn:Hc.
    + apply Ascii.eqb_eq in Hc as ->. exists (S k). simpl. now f_equal.
    + now exists 0%nat.
Qed.

Lemma rev_repeat_blank (k : nat) : rev (repeat blank k) = repeat blank k.
Proof.
  induction k as [|k IH]; simpl; [reflexivity|].
  rewrite IH. symmetry. apply (repeat_cons k blank).
Qed.

Lemma dropwhile_end_blank_split (s : str) :
  exists k, s = dropwhile_end is_blank s ++ repeat blank k.
Proof.
  destruct (dropwhile_blank_split (rev s)) as [k Hk]. exists k.
  unfold dropwhile_end. rewrite <- rev_repeat_blank, <- rev_app_distr, <- Hk.
  symmetry. apply rev_involutive.
Qed.

(** On two values of the same length the comparison is plain equality. *)
Lemma bpchar_eq_same_length (a b : str) :
  length a = length b -> Pg.bpchar_eq a b = true -> a = b.
Proof.
  intros Hlen E. unfold Pg.bpchar_eq in E. apply str_eqb_eq in E.
  destruct (dropwhile_end_blank_split a) as [ka Ha].
  destruct (dropwhile_end_blank_split b) as [kb Hb].
  rewrite Ha, Hb, E in Hlen. rewrite !length_app, !repeat_length in Hlen.
  assert (ka = kb) by lia. subst kb. rewrite Ha, Hb, E. reflexivity.
Qed.


(** ** Histories keep a session that is left alone *)

Lemma run_returns {A : Type} (m : M A) (c c' : connection) :
  (m ;; ret tt) c = Ok (tt, c') -> exists a, m c = Ok (a, c').
Proof.
  unfold bind, ret. destruct (m c) as [[a c1]|e]; [|discriminate].
  intros [= <-]. now exists a.
Qed.

Lemma token_is_other (t t' : str) (r : session) :
  Sql.token_is t r = true -> Pg.bpchar_eq t t' = false ->
  Sql.token_is t' r = false.
Proof.
  unfold Sql.token_is. intros Hr Hne.
  now rewrite (bpchar_eq_trans_l _ _ t' Hr).
Qed.

Lemma session_kept_step P t r0 now db c db' :
  Sql.token_is t r0 = true ->
  leaves_alone t now c ->
  step db c db' ->
  session_kept P t r0 now db -> session_kept P t r0 now db'.
Proof.
  intros Hr0 Hc Hstep [Hall Hin].
  destruct Hstep as [Hret | e _ Hsame];
    [| unfold session_kept; rewrite Hsame; auto].
  destruct c as [rng n sl l r | ns nd t' | t' | t' | t']; simpl in Hret, Hc;
    apply run_returns in Hret as [a Hret].
  - apply store_user_auth_returns in Hret
      as (l' & _ & _ & _ & _ & [= ->]).
    split; simpl.
    + intros x Hx Hm. apply in_insert_at in Hx as [-> | Hx]; auto.
      unfold Sql.token_is in Hm. simpl in Hm. congruence.
    + intros Hlive. apply in_insert_at. auto.
  - apply is_valid_token_returns in Hret as (_ & _ & [= ->]).
    split; simpl.
    + intros x Hx. apply filter_In in Hx as [Hx _]. auto.
    + intros Hlive. apply filter_In. split; auto.
      unfold Sql.is_expired. apply negb_true_iff, Z.leb_gt. lia.
  - apply get_login_by_token_returns in Hret as (_ & [= ->] & _). now split.
  - apply get_role_id_by_token_returns in Hret as (_ & [= ->] & _).
    now split.
  - apply remove_token_returns in Hret as (_ & [= ->]).
    split; simpl.
    + intros x Hx. apply filter_In in Hx as [Hx _]. auto.
    + intros Hlive. apply filter_In. split; auto.
      apply negb_true_iff. now apply token_is_other with t.
Qed.

Lemma session_kept_steps P t r0 now db hist db' :
  Sql.token_is t r0 = true ->
  Forall (leaves_alone t now) hist ->
  steps db hist db' ->
  session_kept P t r0 now db -> session_kept P t r0 now db'.
Proof.
  intros Hr0 Hall Hsteps. induction Hsteps as [db | db c db1 cs db2 H1 _ IH].
  - auto.
  - inversion Hall; subst. eauto using session_kept_step.
Qed.

Lemma session_kept_weaken (P Q : session -> Prop) t r0 now db :
  (forall r, P r -> Q r) ->
  session_kept P t r0 now db -> session_kept Q t r0 now db.
Proof. intros HPQ [Hall Hin]. split; auto. Qed.

(** Right after the issue of a token its session is kept in the issued
    row, with every property that row shares with the rows that carried
    the token before. *)
Lemma session_kept_issued P rng now slot l l' r db t db1 now' :
  store_user_auth rng now slot l r (Some db) = Ok (t, Some db1) ->
  Pg.bpchar 64 l = Some l' ->
  (forall x, In x (sessions db) -> Sql.token_is t x = true -> P x) ->
  P (issued_row rng now l' r db) ->
  Sql.token_is t (issued_row rng now l' r db) = true /\
  session_kept P t (issued_row rng now l' r db) now' db1.
Proof.
  intros Hissue Hl Hold Hnew.
  apply store_user_auth_returns in Hissue
    as (l0 & Hl0 & _ & _ & -> & [= ->]).
  rewrite Hl in Hl0. injection Hl0 as <-.
  repeat split.
  - apply bpchar_eq_refl.
  - simpl. intros x Hx Hm. apply in_insert_at in Hx as [-> | Hx]; auto.
  - simpl. intros _. apply in_insert_at. now left.
Qed.

(** The answer of [is_valid_token] when no row that carries [t]
    outlives the row [r0] of its session. *)
Lemma session_kept_valid t r0 now db :
  Sql.token_is t r0 = true ->
  session_kept (fun r => expires r <= expires r0) t r0 now db ->
  existsb (Sql.token_is_live t now) (sessions db) = (now <? expires r0).
Proof.
  intros Hr0 [Hall Hin]. destruct (now <? expires r0) eqn:Hlive.
  - apply existsb_exists. exists r0. split.
    + apply Hin. now apply Z.ltb_lt.
    + unfold Sql.token_is_live. now rewrite Hr0, Hlive.
  - destruct (existsb _ _) eqn:Hex; [|reflexivity].
    apply existsb_exists in Hex as (x & Hx & Hm).
    unfold Sql.token_is_live in Hm. apply andb_true_iff in Hm as [Hm Hx'].
    specialize (Hall x Hx Hm). apply Z.ltb_lt in Hx'. apply Z.ltb_ge in Hlive.
    lia.
Qed.

(** ** The width of the cells is kept *)

Lemma char64_cells_step db c db' :
  step db c db' -> char64_cells db -> char64_cells db'.
Proof.
  intros Hstep Hcells.
  destruct Hstep as [Hret | e _ Hsame];
    [| unfold char64_cells; rewrite Hsame; auto].
  destruct c as [rng n sl l r | ns nd t' | t' | t' | t']; simpl in Hret;
    apply run_returns in Hret as [a Hret].
  - apply store_user_auth_returns in Hret
      as (l' & Hl & _ & _ & _ & [= ->]).
    intros x Hx. simpl in Hx. apply in_insert_at in Hx as [-> | Hx]; auto.
    split; [exact (generate_token_length rng) | exact (bpchar_length _ _ _ Hl)].
  - apply is_valid_token_returns in Hret as (_ & _ & [= ->]).
    intros x Hx. simpl in Hx. apply filter_In in Hx as [Hx _]. auto.
  - now apply get_login_by_token_returns in Hret as (_ & [= ->] & _).
  - now apply get_role_id_by_token_returns in Hret as (_ & [= ->] & _).
  - apply remove_token_returns in Hret as (_ & [= ->]).
    intros x Hx. simpl in Hx. apply filter_In in Hx as [Hx _]. auto.
Qed.

Lemma char64_cells_steps db hist db' :
  steps db hist db' -> char64_cells db -> char64_cells db'.
Proof.
  induction 1 as [db | db c db1 cs db2 H1 _ IH]; eauto using char64_cells_step.
Qed.

(** ** Validity and garbage collection *)

(** C1, as the specification words it, fails.  The token is compared at
    type [CHAR], so a token with three blanks appended is valid though
    no row holds that exact value; and a token with U+0000 is refused
    by the backend, so that the call raises and answers nothing. *)
Lemma valid_as_specified_fails :
  ~ valid_as_specified (_generate_token sample_rng ++ Pg.blanks 3)
      sample_later 847000004000000 /\
  ~ valid_as_specified with_nul sample_later 847000004000000.
Proof.
  split; intros (b & c & Hrun & Hiff); vm_compute in Hrun;
    [|discriminate].
  injection Hrun as <- _.
  destruct (proj1 Hiff eq_refl) as (r & [<- | []] & Htoken & _).
  apply (f_equal (@length ascii)) in Htoken. vm_compute in Htoken.
  discriminate.
Qed.

(** C1 (amended).  For every token without U+0000 and every table,
    [is_valid_token] returns, and its answer is [true] exactly when
    some row carries the token and expires strictly after the time the
    [SELECT] reads; it is [false] exactly when every row that carries
    the token has expired.  The token is compared as the [WHERE] clause
    compares it, at type [CHAR], without its trailing blanks; on a
    64-character token and a table of 64-character cells that is
    equality of strings. *)
Theorem is_valid_token_iff (t : str) (db : database) (ns nd : Z) :
  Pg.text_ok t = true ->
  exists b db',
    is_valid_token ns nd t (Some db) = Ok (b, Some db') /\
    (b = true <->
       exists r, In r (sessions db) /\ Pg.bpchar_eq (token r) t = true /\
                 ns < expires r) /\
    (b = false <->
       forall r, In r (sessions db) -> Pg.bpchar_eq (token r) t = true ->
                 expires r <= ns) /\
    (char64_cells db -> length t = 64%nat ->
       (b = true <->
          exists r, In r (sessions db) /\ token r = t /\ ns < expires r)).
Proof.
  intros Htext.
  rewrite (is_valid_token_eq _ _ _ _ Htext).
  eexists. eexists. split; [reflexivity|].
  assert (Hsql : existsb (Sql.token_is_live t ns) (sessions db) = true <->
            exists r, In r (sessions db) /\
                      Pg.bpchar_eq (token r) t = true /\ ns < expires r).
  { rewrite existsb_exists. unfold Sql.token_is_live, Sql.token_is.
    split; intros (r & Hr & H); exists r; split; auto.
    - apply andb_true_iff in H as [H1 H2]. now apply Z.ltb_lt in H2.
    - destruct H as [H1 H2]. apply Z.ltb_lt in H2. now rewrite H1, H2. }
  split; [exact Hsql|]. split.
  - rewrite <- not_true_iff_false, Hsql. split.
    + intros Hno r Hr Hm. destruct (Z.le_gt_cases (expires r) ns); auto.
      exfalso. apply Hno. exists r. auto.
    + intros Hall (r & Hr & Hm & Hlive). specialize (Hall r Hr Hm). lia.
  - intros Hcells Hlen. rewrite Hsql.
    split; intros (r & Hr & Hm & Hlive); exists r; repeat split; auto.
    + apply bpchar_eq_same_length; auto.
      destruct (Hcells r Hr) as [-> _]. now rewrite Hlen.
    + subst t. apply bpchar_eq_refl.
Qed.

Lemma char64_cells_sample_db : char64_cells sample_db.
Proof.
  intros r [<- | [<- | [<- | []]]]; split; reflexivity.
Defined.

Lemma is_valid_token_iff_witness :
  exists b db',
    is_valid_token 1000000 1000000 (_generate_token sample_rng)
      (Some sample_db) = Ok (b, Some db') /\
    (b = true <->
       exists r, In r (sessions sample_db) /\
                 token r = _generate_token sample_rng /\
                 1000000 < expires r).
Proof.
  destruct (is_valid_token_iff (_generate_token sample_rng) sample_db
              1000000 1000000 eq_refl) as (b & db' & Hrun & _ & _ & Hexact).
  exists b, db'. split; [exact Hrun|].
  apply Hexact; [exact char64_cells_sample_db | reflexivity].
Defined.

(** C2, as the specification words it, fails.  The [SELECT] and the
    [DELETE] each read the clock: the only row of a token expires
    between the two readings, the token is found valid and the same
    call deletes its row.  And a token with U+0000 is refused by the
    backend in the [SELECT], so that the call raises before it
    sweeps. *)
Lemma sweep_as_specified_fails :
  ~ sweep_as_specified (_generate_token sample_rng) sample_racy
      847043200999999 847043201000000 /\
  ~ sweep_as_specified with_nul sample_db 1000000 1000000.
Proof.
  split; intros (b & db' & Hrun & _ & _ & Hown); vm_compute in Hrun;
    [|discriminate].
  injection Hrun as <- <-.
  destruct (Hown eq_refl) as (r & [] & _).
Qed.

(** C2 (amended).  For every token without U+0000, [is_valid_token]
    leaves in the table exactly the rows that expire strictly after the
    time its [DELETE] reads, in their order: every row that expires at
    or before that time is gone, so none that expires at or before the
    earlier reading of the [SELECT] remains; every row that expires
    later survives, among them the rows of the token asked about that
    are still valid at that time; and the answer is the one computed on
    the table as it was before the sweep. *)
Theorem is_valid_token_sweeps (t : str) (db : database) (ns nd : Z)
  (Htext : Pg.text_ok t = true) (Hclock : ns <= nd) :
  exists db',
    is_valid_token ns nd t (Some db) =
      Ok (existsb (Sql.token_is_live t ns) (sessions db), Some db') /\
    sessions db' = filter (fun r => nd <? expires r) (sessions db) /\
    (forall r, In r (sessions db') <-> In r (sessions db) /\ nd < expires r) /\
    (forall r, In r (sessions db') -> ns < expires r) /\
    (forall r, In r (sessions db) -> Sql.token_is t r = true ->
               nd < expires r -> In r (sessions db')).
Proof.
  rewrite (is_valid_token_eq _ _ _ _ Htext).
  eexists. split; [reflexivity|]. simpl.
  assert (Hf : forall l : list session,
             filter (fun r => negb (Sql.is_expired nd r)) l =
             filter (fun r => nd <? expires r) l).
  { intros l. apply filter_ext. intros r. unfold Sql.is_expired.
    now rewrite Z.ltb_antisym. }
  rewrite Hf.
  assert (Hin : forall r, In r (filter (fun r => nd <? expires r) (sessions db))
                          <-> In r (sessions db) /\ nd < expires r).
  { intros r. now rewrite filter_In, Z.ltb_lt. }
  split; [reflexivity|]. split; [exact Hin|]. split.
  - intros r Hr. apply Hin in Hr. lia.
  - intros r Hr _ Hlive. now apply Hin.
Qed.

Lemma is_valid_token_sweeps_witness :
  exists db',
    is_valid_token 1000000 1000001 (_generate_token sample_rng)
      (Some sample_db) = Ok (true, Some db') /\
    length (sessions db') = 2%nat.
Proof.
  destruct (is_valid_token_sweeps (_generate_token sample_rng) sample_db
              1000000 1000001 eq_refl ltac:(lia)) as (db' & Hrun & Hrows & _).
  exists db'. split; [exact Hrun|]. rewrite Hrows. reflexivity.
Defined.

(** ** Issue *)

(** C3, as the specification words it, fails: the [TIMESTAMP(0)] column
    rounds the expiry to a whole second, so a session issued at a time
    with 0.7 s of fraction does not expire at that time plus 12 hours;
    a login of 65 letters, a login with U+0000, a role beyond 32 bits
    and an [id] beyond 32 bits are rejected and no token is returned. *)
Lemma issue_as_specified_fails :
  ~ issue_as_specified sample_rng 847000000700000 0 (lit "alice") 2
      empty_db /\
  ~ issue_as_specified sample_rng 847000000000000 0 (repeat "a"%char 65) 2
      empty_db /\
  ~ issue_as_specified sample_rng 847000000000000 0 with_nul 2 empty_db /\
  ~ issue_as_specified sample_rng 847000000000000 0 (lit "alice") (2 ^ 31)
      empty_db /\
  ~ issue_as_specified sample_rng 847000000000000 0 (lit "alice") 2 spent_db.
Proof.
  repeat split; intros (t & db' & row & Hrun & Hrows & _ & _ & _ & Hexp);
    vm_compute in Hrun; try discriminate.
  injection Hrun as _ <-. vm_compute in Hrows. injection Hrows as <-.
  vm_compute in Hexp. discriminate.
Qed.

(** C3 (amended).  When the backend accepts the row (the login holds
    no U+0000, fits [CHAR(64)] and is stored as [l'], the role and the
    next [id] fit [INTEGER]), [store_user_auth] puts exactly one row
    into the table, wherever the backend places it, and leaves the
    others as they were and in their order; the row holds the generated
    token, the login padded to 64 characters, the given role, and as
    expiry the time read plus 12 hours rounded to the nearest whole
    second; the generated token is returned. *)
Theorem store_user_auth_inserts (rng : entropy) (now : Z) (slot : nat)
  (l l' : str) (r : Z) (db : database) :
  Pg.bpchar 64 l = Some l' ->
  - 2 ^ 31 <= r < 2 ^ 31 ->
  - 2 ^ 31 <= sessions_id_seq db < 2 ^ 31 ->
  exists db' row,
    store_user_auth rng now slot l r (Some db) =
      Ok (token_hex rng 32, Some db') /\
    sessions db' = firstn slot (sessions db) ++ row :: skipn slot (sessions db)
    /\ (forall x, In x (sessions db') <-> x = row \/ In x (sessions db)) /\
    Pg.text_ok l = true /\
    token row = token_hex rng 32 /\
    login row = l' /\ Pg.bpchar_eq (login row) l = true /\
    role_id row = r /\
    expires row = Pg.timestamp0 (now + TTL) /\
    now + TTL - 500000 <= expires row <= now + TTL + 500000 /\
    ((now + TTL) mod 1000000 = 0 -> expires row = now + TTL).
Proof.
  intros Hl Hr Hseq.
  rewrite (store_user_auth_accepts _ _ slot _ _ _ _ Hl Hr Hseq).
  eexists. exists (issued_row rng now l' r db).
  split; [reflexivity|]. simpl.
  split; [reflexivity|]. split; [intros x; apply in_insert_at|].
  split; [exact (proj1 (bpchar_text_ok _ _ _ Hl))|].
  repeat split; eauto using bpchar_eq_stored, timestamp0_whole;
    apply timestamp0_near.
Qed.

Lemma store_user_auth_inserts_witness :
  exists db' row,
    store_user_auth sample_rng 847000000700000 1 (lit "alice") 2
      (Some sample_db) = Ok (token_hex sample_rng 32, Some db') /\
    sessions db' = firstn 1 (sessions sample_db)
                   ++ row :: skipn 1 (sessions sample_db) /\
    login row = lit "alice" ++ Pg.blanks 59 /\
    expires row = 847043201000000.
Proof.
  destruct (store_user_auth_inserts sample_rng 847000000700000 1
              (lit "alice") (lit "alice" ++ Pg.blanks 59) 2 sample_db)
    as (db' & row & Hrun & Hrows & _ & _ & _ & Hlogin & _ & _ & Hexp & _);
    [reflexivity | simpl; lia | simpl; lia |].
  exists db', row. repeat split; auto.
Defined.

(** ** The validity window *)



Lemma sample_issue :
  store_user_auth sample_rng 847000000700000 0 (lit "alice") 2
    (Some empty_db)
  = Ok (_generate_token sample_rng, Some sample_issued).
Proof. vm_compute. reflexivity. Defined.

Lemma sample_steps : steps sample_issued sample_history sample_later.
Proof.
  apply steps_cons with sample_both;
    [apply step_returns; vm_compute; reflexivity|].
  apply steps_cons with sample_both;
    [apply step_raises with IndexError; vm_compute; reflexivity|].
  apply steps_cons with sample_both;
    [apply step_returns; vm_compute; reflexivity|].
  apply steps_cons with sample_later;
    [apply step_returns; vm_compute; reflexivity|].
  apply steps_nil.
Defined.

Lemma sample_left_alone (now : Z) :
  847000003000000 <= now ->
  Forall (leaves_alone (_generate_token sample_rng) now) sample_history.
Proof.
  intros Hnow. unfold sample_history.
  repeat (apply Forall_cons || apply Forall_nil);
    [reflexivity | exact I | exact Hnow | reflexivity].
Defined.

Lemma fresh_empty_db (t : str) : fresh t empty_db.
Proof. intros r []. Defined.




(** ** Revocation *)

Lemma filter_idem {A : Type} (p : A -> bool) (l : list A) :
  filter p (filter p l) = filter p l.
Proof. apply forallb_filter_id, forallb_filter. Qed.

Lemma filter_all {A : Type} (p : A -> bool) (l : list A) :
  (forall a, In a l -> p a = true) -> filter p l = l.
Proof. intros H. now apply forallb_filter_id, forallb_forall. Qed.

(** Values that are equal at type [CHAR] hold U+0000 together or not at
    all. *)
Lemma bpchar_eq_text_ok (a b : str) :
  Pg.bpchar_eq a b = true -> Pg.text_ok a = Pg.text_ok b.
Proof.
  unfold Pg.bpchar_eq. intros E. apply str_eqb_eq in E.
  destruct (dropwhile_end_blank_split a) as [ka Ha].
  destruct (dropwhile_end_blank_split b) as [kb Hb].
  rewrite Ha, Hb, E.
  rewrite !text_ok_trailing; [reflexivity | |];
    now apply (forallb_blanks is_blank).
Qed.

(** C5, as the specification words it, fails.  A token with U+0000 is
    refused by the backend, so that [remove_token] raises: it is not
    total over tokens.  And the token is compared at type [CHAR]:
    revoking a token with three blanks appended deletes the row whose
    token is the one without them, a value that differs from the
    argument. *)
Lemma revoke_as_specified_fails :
  ~ revoke_as_specified with_nul sample_db /\
  ~ revoke_as_specified (_generate_token sample_rng ++ Pg.blanks 3)
      sample_issued.
Proof.
  split; intros (db' & Hrun & _ & Hkept); vm_compute in Hrun;
    [discriminate|].
  injection Hrun as <-.
  apply (Hkept (nth 0 (sessions sample_issued) sample_row));
    [left; reflexivity|].
  intros Htoken. apply (f_equal (@length ascii)) in Htoken.
  vm_compute in Htoken. discriminate.
Qed.

(** C5 (amended).  [remove_token] returns for every token without
    U+0000 and every table.  A second call with the same token changes
    nothing more.  The rows that do not carry the token (rows whose
    token differs from it otherwise than in trailing blanks; for a
    64-character token and 64-character cells, rows whose token differs
    from it) are kept, all of them and in their order; when no row
    carries the token the table is left as it was. *)
Theorem remove_token_idempotent (t : str) (db : database) :
  Pg.text_ok t = true ->
  exists db',
    remove_token t (Some db) = Ok (tt, Some db') /\
    remove_token t (Some db') = Ok (tt, Some db') /\
    sessions db' = filter (fun r => negb (Sql.token_is t r)) (sessions db) /\
    (forall r, Sql.token_is t r = false ->
               (In r (sessions db') <-> In r (sessions db))) /\
    (fresh t db -> db' = db) /\
    (char64_cells db -> length t = 64%nat ->
     forall r, In r (sessions db) -> token r <> t -> In r (sessions db')).
Proof.
  intros Htext.
  rewrite (remove_token_eq _ _ Htext). eexists. split; [reflexivity|].
  rewrite (remove_token_eq _ _ Htext). simpl. rewrite filter_idem.
  split; [reflexivity|]. split; [reflexivity|]. split; [|split].
  - intros r Hr. rewrite filter_In, Hr. simpl. tauto.
  - intros Hfresh. destruct db as [rows next]. simpl. f_equal.
    apply filter_all. intros r Hr. now rewrite (Hfresh r Hr).
  - intros Hcells Hlen r Hr Hne. apply filter_In. split; [exact Hr|].
    apply negb_true_iff. unfold Sql.token_is.
    destruct (Pg.bpchar_eq (token r) t) eqn:E; [|reflexivity].
    exfalso. apply Hne. apply bpchar_eq_same_length; [|exact E].
    destruct (Hcells r Hr) as [-> _]. now rewrite Hlen.
Qed.

Lemma remove_token_idempotent_witness :
  exists db',
    remove_token (lit "never issued") (Some sample_db) = Ok (tt, Some db') /\
    db' = sample_db.
Proof.
  destruct (remove_token_idempotent (lit "never issued") sample_db eq_refl)
    as (db' & Hrun & _ & _ & _ & Hnoop & _).
  exists db'. split; [exact Hrun|]. apply Hnoop.
  intros r [<- | [<- | [<- | []]]]; reflexivity.
Defined.




(** ** Lookups *)

(** C6, as the specification words it, fails: a token with U+0000
    matches no row, and the lookups fail on it with the error of the
    backend, which refuses the parameter, not with the one of the empty
    result. *)
Lemma absent_as_specified_fails : ~ absent_as_specified with_nul sample_db.
Proof.
  intros H. destruct H as [Hlogin _].
  - intros r [<- | [<- | [<- | []]]]; reflexivity.
  - vm_compute in Hlogin. discriminate.
Qed.

(** C6 (amended).  When no row carries the token, [get_login_by_token]
    and [get_role_id_by_token] raise and return no value: for a token
    without U+0000 the empty result is indexed at 0 and [IndexError]
    is raised; for a token with U+0000 the error of the backend. *)
Theorem lookups_raise_on_absent (t : str) (db : database) :
  fresh t db ->
  (Pg.text_ok t = true ->
   get_login_by_token t (Some db) = Raise IndexError /\
   get_role_id_by_token t (Some db) = Raise IndexError) /\
  (Pg.text_ok t = false ->
   get_login_by_token t (Some db) = Raise DatabaseError /\
   get_role_id_by_token t (Some db) = Raise DatabaseError) /\
  exists e,
    get_login_by_token t (Some db) = Raise e /\
    get_role_id_by_token t (Some db) = Raise e.
Proof.
  intros Hfresh. apply find_none_iff in Hfresh.
  assert (Hok : Pg.text_ok t = true ->
            get_login_by_token t (Some db) = Raise IndexError /\
            get_role_id_by_token t (Some db) = Raise IndexError).
  { intros Htext.
    now rewrite (get_login_by_token_eq _ _ Htext),
      (get_role_id_by_token_eq _ _ Htext), Hfresh. }
  assert (Hnul : Pg.text_ok t = false ->
            get_login_by_token t (Some db) = Raise DatabaseError /\
            get_role_id_by_token t (Some db) = Raise DatabaseError).
  { intros Htext.
    destruct (nul_token_raises t 0 0 db Htext) as (_ & E1 & E2 & _). auto. }
  split; [exact Hok|]. split; [exact Hnul|].
  destruct (Pg.text_ok t); [exists IndexError | exists DatabaseError]; auto.
Qed.

Lemma lookups_raise_on_absent_witness :
  get_login_by_token (lit "never issued") (Some sample_db)
    = Raise IndexError /\
  get_role_id_by_token (lit "never issued") (Some sample_db)
    = Raise IndexError.
Proof.
  apply (lookups_raise_on_absent (lit "never issued") sample_db);
    [|reflexivity].
  intros r [<- | [<- | [<- | []]]]; reflexivity.
Defined.

(** C7, as the specification words it, fails: [strip] removes more than
    the padding.  The login " bob" is stored with a leading blank, and
    the lookup returns "bob", not the stored value without its
    padding. *)
Lemma lookup_as_specified_fails :
  ~ lookup_as_specified (_generate_token other_rng) sample_db.
Proof.
  intros H.
  destruct (H (nth 1 (sessions sample_db) sample_row) eq_refl) as [Hlogin _].
  vm_compute in Hlogin. discriminate.
Qed.

Lemma find_with_expires (f : session -> Z) (t : str) (db : database) :
  find (Sql.token_is t) (sessions (with_expires f db)) =
  option_map (fun r => {| id := id r; token := token r; login := login r;
                          role_id := role_id r; expires := f r |})
             (find (Sql.token_is t) (sessions db)).
Proof.
  unfold with_expires. simpl.
  induction (sessions db) as [|r rows IH]; simpl; [reflexivity|].
  unfold Sql.token_is at 1 3. simpl.
  destruct (Pg.bpchar_eq (token r) t); [reflexivity | exact IH].
Qed.

(** C7 (amended).  When some row carries the token (a row of a table:
    its token holds no U+0000, which the column refuses), both lookups
    return, on one row [r] that carries it.  [get_login_by_token]
    returns the stored login with the whitespace at both of its ends
    removed, which takes the padding away and any other leading or
    trailing whitespace with it; when the login under the padding has
    no whitespace at either end, that is the stored login with its
    padding trimmed.  [get_role_id_by_token] returns the stored role as
    it is.  Neither looks at [expires]: with any other expiry times in
    the table the results are the same. *)
Theorem lookups_by_token (t : str) (db : database) (r0 : session) :
  In r0 (sessions db) -> Pg.text_ok (token r0) = true ->
  Sql.token_is t r0 = true ->
  exists r,
    In r (sessions db) /\ Sql.token_is t r = true /\
    get_login_by_token t (Some db) = Ok (strip (login r), Some db) /\
    get_role_id_by_token t (Some db) = Ok (role_id r, Some db) /\
    strip (login r) = strip (trim_padding (login r)) /\
    (strip (trim_padding (login r)) = trim_padding (login r) ->
     get_login_by_token t (Some db) = Ok (trim_padding (login r), Some db)) /\
    (forall f,
       get_login_by_token t (Some (with_expires f db))
         = Ok (strip (login r), Some (with_expires f db)) /\
       get_role_id_by_token t (Some (with_expires f db))
         = Ok (role_id r, Some (with_expires f db))).
Proof.
  intros Hin Hrow Hm.
  assert (Htext : Pg.text_ok t = true).
  { unfold Sql.token_is in Hm. now rewrite <- (bpchar_eq_text_ok _ _ Hm). }
  destruct (find (Sql.token_is t) (sessions db)) as [r|] eqn:Hfind.
  2:{ rewrite (find_none _ _ Hfind _ Hin) in Hm. discriminate. }
  exists r. destruct (find_some _ _ Hfind) as [Hr Hrm].
  assert (Htrim : strip (login r) = strip (trim_padding (login r))).
  { destruct (dropwhile_end_blank_split (login r)) as [k Hk].
    unfold trim_padding. rewrite Hk at 1. unfold strip.
    rewrite dropwhile_end_app_all; [reflexivity|].
    now apply (forallb_blanks isspace). }
  rewrite (get_login_by_token_eq _ _ Htext),
    (get_role_id_by_token_eq _ _ Htext), Hfind.
  repeat split; auto.
  - intros Hclean. now rewrite Htrim, Hclean.
  - rewrite (get_login_by_token_eq _ _ Htext), find_with_expires, Hfind.
    reflexivity.
  - rewrite (get_role_id_by_token_eq _ _ Htext), find_with_expires, Hfind.
    reflexivity.
Qed.

Lemma lookups_by_token_witness :
  get_login_by_token (_generate_token other_rng) (Some sample_db)
    = Ok (lit "bob", Some sample_db) /\
  get_role_id_by_token (_generate_token other_rng) (Some sample_db)
    = Ok (1, Some sample_db).
Proof.
  destruct (lookups_by_token (_generate_token other_rng) sample_db
              (nth 2 (sessions sample_db) sample_row))
    as (r & Hr & Hm & Hlogin & Hrole & _);
    [right; right; left; reflexivity | reflexivity | reflexivity |].
  rewrite Hlogin, Hrole.
  destruct Hr as [<- | [<- | [<- | []]]];
    [vm_compute in Hm; discriminate | |]; split; reflexivity.
Defined.

(** ** Round trip *)

Lemma fresh_not_valid (t : str) (db : database) (now : Z) :
  fresh t db -> existsb (Sql.token_is_live t now) (sessions db) = false.
Proof.
  intros Hfresh. destruct (existsb _ _) eqn:Hex; [|reflexivity].
  apply existsb_exists in Hex as (r & Hr & Hm).
  unfold Sql.token_is_live in Hm. rewrite (Hfresh r Hr) in Hm. discriminate.
Qed.

(** C8, as the specification words it, fails.  For the login " bob"
    (leading blank) the lookup after the issue returns "bob".  And when
    the random source hands out the bytes of a token that a row of
    "alice" already carries and the new row comes after that one in the
    scan, the lookup after the issue for "carol" returns "alice". *)
Lemma round_trip_as_specified_fails :
  ~ round_trip_as_specified sample_rng 847000000700000 0 (lit " bob") 1
      empty_db 847000001000000 /\
  ~ round_trip_as_specified sample_rng 847000000700000 3 (lit "carol") 3
      sample_db 847000001000000.
Proof.
  split; intros H.
  - destruct (store_user_auth sample_rng 847000000700000 0 (lit " bob") 1
                (Some empty_db)) as [[t c] | e] eqn:Hissue;
      [| vm_compute in Hissue; discriminate].
    destruct (H t c Hissue ltac:(unfold TTL; lia)) as [Hlogin _].
    vm_compute in Hissue. injection Hissue as <- <-.
    vm_compute in Hlogin. discriminate.
  - destruct (store_user_auth sample_rng 847000000700000 3 (lit "carol") 3
                (Some sample_db)) as [[t c] | e] eqn:Hissue;
      [| vm_compute in Hissue; discriminate].
    destruct (H t c Hissue ltac:(unfold TTL; lia)) as [Hlogin _].
    vm_compute in Hissue. injection Hissue as <- <-.
    vm_compute in Hlogin. discriminate.
Qed.

(** C8 (amended).  Let a fresh token be issued for a login that has no
    whitespace at either end, and let the session be left alone up to a
    moment [now'] before its expiry.  Then [get_login_by_token] returns
    the login, [get_role_id_by_token] returns the role, and
    [is_valid_token] reading [now'] answers [true]; and once
    [remove_token] has run, [is_valid_token] answers [false] whatever
    the time. *)
Theorem round_trip (rng : entropy) (now : Z) (slot : nat) (l : str) (r : Z)
  (db db1 db2 : database) (t : str) (hist : list call) (now' nd : Z) :
  store_user_auth rng now slot l r (Some db) = Ok (t, Some db1) ->
  fresh t db ->
  strip l = l ->
  steps db1 hist db2 ->
  Forall (leaves_alone t now') hist ->
  now' < Pg.timestamp0 (now + TTL) ->
  get_login_by_token t (Some db2) = Ok (l, Some db2) /\
  get_role_id_by_token t (Some db2) = Ok (r, Some db2) /\
  exists db3,
    is_valid_token now' nd t (Some db2) = Ok (true, Some db3) /\
    exists db4,
      remove_token t (Some db3) = Ok (tt, Some db4) /\
      forall ns' nd', exists db5,
        is_valid_token ns' nd' t (Some db4) = Ok (false, Some db5).
Proof.
  intros Hissue Hfresh Hstrip Hsteps Halone Hlive.
  destruct (store_user_auth_returns _ _ _ _ _ _ _ _ Hissue)
    as (l' & Hl & _ & _ & Ht & _).
  assert (Htext : Pg.text_ok t = true)
    by (rewrite Ht; apply generate_token_text_ok).
  destruct (session_kept_issued (fun x => x = issued_row rng now l' r db)
              _ _ _ _ _ _ _ _ _ now' Hissue Hl) as [Hmatch Hsession];
    [intros x Hx Hm; rewrite (Hfresh x Hx) in Hm; discriminate
    | reflexivity |].
  pose proof (session_kept_steps _ _ _ _ _ _ _ Hmatch Halone Hsteps Hsession)
    as Hnow.
  assert (Hfind : find (Sql.token_is t) (sessions db2)
                  = Some (issued_row rng now l' r db)).
  { destruct Hnow as [Honly Hin]. apply find_only; auto. }
  rewrite (get_login_by_token_eq _ _ Htext),
    (get_role_id_by_token_eq _ _ Htext), Hfind. simpl.
  rewrite (strip_stored _ _ _ Hl), Hstrip.
  split; [reflexivity|]. split; [reflexivity|].
  assert (Hle : session_kept
                  (fun x => expires x <= expires (issued_row rng now l' r db))
                  t (issued_row rng now l' r db) now' db2).
  { apply session_kept_weaken with (2 := Hnow). intros x ->. apply Z.le_refl. }
  rewrite (is_valid_token_eq _ _ _ _ Htext),
    (session_kept_valid _ _ _ _ Hmatch Hle). simpl.
  apply Z.ltb_lt in Hlive. rewrite Hlive.
  eexists. split; [reflexivity|].
  rewrite (remove_token_eq _ _ Htext). eexists. split; [reflexivity|].
  intros ns' nd'. rewrite (is_valid_token_eq _ _ _ _ Htext). eexists.
  rewrite fresh_not_valid; [reflexivity|].
  intros x Hx. simpl in Hx. apply filter_In in Hx as [_ Hx].
  now apply negb_true_iff in Hx.
Qed.

Lemma round_trip_witness :
  get_login_by_token (_generate_token sample_rng) (Some sample_later)
    = Ok (lit "alice", Some sample_later) /\
  get_role_id_by_token (_generate_token sample_rng) (Some sample_later)
    = Ok (2, Some sample_later) /\
  exists db3,
    is_valid_token 847000004000000 847000004000000
      (_generate_token sample_rng) (Some sample_later) = Ok (true, Some db3).
Proof.
  destruct (round_trip _ _ _ _ _ _ _ _ _ _ 847000004000000 847000004000000
              sample_issue (fresh_empty_db _) eq_refl sample_steps
              (sample_left_alone 847000004000000 ltac:(lia))
              ltac:(reflexivity))
    as (Hlogin & Hrole & db3 & Hvalid & _).
  split; [exact Hlogin|]. split; [exact Hrole|]. exists db3. exact Hvalid.
Defined.

(** ** The token and the identity *)

(** C10.  The token [store_user_auth] returns is the hexadecimal form
    of the 32 bytes drawn from the random source and nothing else: two
    calls that draw the same bytes return the same token, whatever the
    logins, the roles, the times, the tables and the places of the
    rows. *)
Theorem token_independent_of_identity (rng : entropy) (now now' : Z)
  (slot slot' : nat) (l l' : str) (r r' : Z) (c c' d d' : connection)
  (t t' : str) :
  store_user_auth rng now slot l r c = Ok (t, d) ->
  store_user_auth rng now' slot' l' r' c' = Ok (t', d') ->
  t = t' /\ t = hex (map rng (seq 0 32)).
Proof.
  intros H H'.
  destruct c as [db|]; [|discriminate]. destruct c' as [db'|]; [|discriminate].
  apply store_user_auth_returns in H as (_ & _ & _ & _ & -> & _).
  apply store_user_auth_returns in H' as (_ & _ & _ & _ & -> & _).
  split; reflexivity.
Qed.

Lemma token_independent_of_identity_witness :
  exists t d d',
    store_user_auth sample_rng 847000000700000 0 (lit "alice") 2
      (Some empty_db) = Ok (t, d) /\
    store_user_auth sample_rng 847000009000000 2 (lit "bob") 1
      (Some sample_db) = Ok (t, d').
Proof.
  destruct (store_user_auth sample_rng 847000000700000 0 (lit "alice") 2
              (Some empty_db)) as [[t d] | e] eqn:H;
    [| vm_compute in H; discriminate].
  destruct (store_user_auth sample_rng 847000009000000 2 (lit "bob") 1
              (Some sample_db)) as [[t' d'] | e] eqn:H';
    [| vm_compute in H'; discriminate].
  destruct (token_independent_of_identity _ _ _ _ _ _ _ _ _ _ _ _ _ _ _
              H H')
    as [<- _].
  exists t, d, d'. split; reflexivity.
Defined.


(** * Further properties of the module *)

(** ** The token *)

Lemma hexdigit_byte (b : Byte.byte) :
  let n := Byte.to_N b in
  is_hexdigit (hexdigit (n / 16)) = true /\
  is_hexdigit (hexdigit (n mod 16)) = true /\
  hexval (hexdigit (n / 16)) = (n / 16)%N /\
  hexval (hexdigit (n mod 16)) = (n mod 16)%N.
Proof. destruct b; vm_compute; auto. Qed.

Lemma hex_digits (bs : list Byte.byte) : forallb is_hexdigit (hex bs) = true.
Proof.
  induction bs as [|b bs IH]; simpl; [reflexivity|].
  destruct (hexdigit_byte b) as (H1 & H2 & _). simpl in H1, H2.
  now rewrite H1, H2, IH.
Qed.

Lemma hex_inj (bs bs' : list Byte.byte) : hex bs = hex bs' -> bs = bs'.
Proof.
  revert bs'. induction bs as [|b bs IH]; intros [|b' bs']; simpl;
    try discriminate; [reflexivity|].
  intros E. injection E as Ehi Elo Erest. f_equal; [|auto].
  destruct (hexdigit_byte b) as (_ & _ & Hhi & Hlo).
  destruct (hexdigit_byte b') as (_ & _ & Hhi' & Hlo').
  simpl in Hhi, Hlo, Hhi', Hlo'.
  rewrite Ehi, Hhi' in Hhi. rewrite Elo, Hlo' in Hlo.
  assert (En : Byte.to_N b = Byte.to_N b').
  { rewrite (N.div_mod (Byte.to_N b) 16), (N.div_mod (Byte.to_N b') 16)
      by discriminate. now rewrite <- Hhi, <- Hlo. }
  apply (f_equal Byte.of_N) in En. rewrite !Byte.of_to_N in En.
  now injection En.
Qed.

Lemma map_seq_ext {A : Type} (f g : nat -> A) (n : nat) :
  map f (seq 0 n) = map g (seq 0 n) <-> forall i, (i < n)%nat -> f i = g i.
Proof.
  split.
  - intros E i Hi.
    apply (f_equal (fun l => nth i l (f i))) in E.
    rewrite (map_nth f), (nth_indep _ (f i) (g 0%nat)) in E
      by (rewrite length_map, length_seq; exact Hi).
    rewrite (map_nth g), !seq_nth in E by exact Hi. exact E.
  - intros H. apply map_ext_in. intros i Hi. apply in_seq in Hi.
    apply H. lia.
Qed.

(** X1.  A token that [store_user_auth] returns has 64 characters, each
    one of [0-9a-f], and fills its [CHAR(64)] cell without padding. *)
Theorem issued_token_format (rng : entropy) (now : Z) (slot : nat) (l : str)
  (r : Z) (c c' : connection) (t : str) :
  store_user_auth rng now slot l r c = Ok (t, c') ->
  length t = 64%nat /\ forallb is_hexdigit t = true /\
  Pg.bpchar 64 t = Some t.
Proof.
  intros H. destruct c as [db|]; [|discriminate].
  apply store_user_auth_returns in H as (_ & _ & _ & _ & -> & _).
  split; [apply generate_token_length|]. split.
  - apply hex_digits.
  - apply generate_token_stored.
Qed.

Lemma issued_token_format_witness :
  length (_generate_token sample_rng) = 64%nat /\
  forallb is_hexdigit (_generate_token sample_rng) = true /\
  Pg.bpchar 64 (_generate_token sample_rng) = Some (_generate_token sample_rng).
Proof.
  exact (issued_token_format _ _ _ _ _ _ _ _ sample_issue).
Defined.

(** X2.  Two draws give tokens that compare equal in the [WHERE] clause
    exactly when the 32 bytes drawn are the same: the token loses
    nothing of the random source, and a collision of tokens is a
    collision of the draws. *)
Theorem tokens_collide_iff (rng rng' : entropy) :
  Pg.bpchar_eq (_generate_token rng) (_generate_token rng') = true <->
  forall i, (i < 32)%nat -> rng i = rng' i.
Proof.
  rewrite <- map_seq_ext. unfold _generate_token, token_hex. split.
  - intros E. apply hex_inj, bpchar_eq_same_length; [|exact E].
    now rewrite !hex_length, !length_map.
  - intros ->. apply bpchar_eq_refl.
Qed.


(** ** Outcomes *)

Lemma bpchar_fits (n : nat) (s : str) :
  Pg.text_ok s && forallb is_blank (skipn n s) = true <->
  exists s', Pg.bpchar n s = Some s'.
Proof.
  unfold Pg.bpchar. destruct (Pg.text_ok s); simpl.
  2:{ split; [discriminate | intros [s' H]; discriminate]. }
  destruct (length s <=? n)%nat eqn:Hle.
  - apply Nat.leb_le in Hle. rewrite skipn_all2 by exact Hle.
    split; [eauto | reflexivity].
  - destruct (forallb is_blank (skipn n s)).
    + split; [eauto | reflexivity].
    + split; [discriminate | intros [s' H]; discriminate].
Qed.

Lemma fits_int4_range (z : Z) : fits_int4 z = true <-> - 2 ^ 31 <= z < 2 ^ 31.
Proof.
  unfold fits_int4. rewrite andb_true_iff, Z.leb_le, Z.ltb_lt. tauto.
Qed.

Lemma length_insert_at {A : Type} (slot : nat) (x : A) (l : list A) :
  length (insert_at slot x l) = S (length l).
Proof.
  unfold insert_at. rewrite <- (firstn_skipn slot l) at 3.
  rewrite !length_app. simpl. lia.
Qed.

Lemma store_user_auth_rejects rng now slot l r db :
  accepted l r db = false ->
  store_user_auth rng now slot l r (Some db) = Raise DatabaseError.
Proof.
  intros Hno.
  destruct (store_user_auth rng now slot l r (Some db)) as [[t c] | e]
    eqn:Hrun.
  - apply store_user_auth_returns in Hrun as (l' & Hl & Hr & Hseq & _).
    unfold accepted in Hno.
    rewrite (proj2 (bpchar_fits 64 l)), (proj2 (fits_int4_range r)),
      (proj2 (fits_int4_range _)) in Hno by eauto.
    discriminate.
  - revert Hrun.
    unfold store_user_auth, bind, assert_DB_CONN, run_statement, ret.
    destruct (Sql.insert_session _ _ _ _ _ db) as [[u db']|];
      [discriminate | congruence].
Qed.

(** X3.  The outcomes of [store_user_auth].  Without a connection it
    raises [AssertionError].  With one, it returns exactly when the
    login holds no U+0000 and has nothing but blanks beyond its 64th
    character and the role and the next [id] are in the range of
    [INTEGER], and then the table has one row more; in every other case
    the backend's error comes out and no token is returned. *)
Theorem store_user_auth_outcome (rng : entropy) (now : Z) (slot : nat)
  (l : str) (r : Z) (c : connection) :
  match c with
  | None => store_user_auth rng now slot l r c = Raise AssertionError
  | Some db =>
      if accepted l r db
      then exists db',
             store_user_auth rng now slot l r c
               = Ok (_generate_token rng, Some db')
             /\ length (sessions db') = S (length (sessions db))
             /\ sessions_id_seq db' = sessions_id_seq db + 1
      else store_user_auth rng now slot l r c = Raise DatabaseError
  end.
Proof.
  destruct c as [db|]; [|reflexivity].
  destruct (accepted l r db) eqn:Hacc;
    [|now apply store_user_auth_rejects].
  unfold accepted in Hacc. apply andb_true_iff in Hacc as [Hacc Hseq].
  apply andb_true_iff in Hacc as [Hl Hr].
  apply bpchar_fits in Hl as [l' Hl].
  apply fits_int4_range in Hr. apply fits_int4_range in Hseq.
  rewrite (store_user_auth_accepts _ _ slot _ _ _ _ Hl Hr Hseq).
  eexists. split; [reflexivity|]. simpl.
  split; [apply length_insert_at | reflexivity].
Qed.


(** ** What a call does to the rows *)

(** The rows after one call: an issue that returns puts its row in,
    a check sweeps, a revocation deletes, and nothing else changes the
    table. *)
Lemma step_rows db c db' :
  step db c db' ->
  match c with
  | Issue rng now slot l r =>
      sessions db' = sessions db \/
      exists l', Pg.bpchar 64 l = Some l' /\ - 2 ^ 31 <= r < 2 ^ 31 /\
                 - 2 ^ 31 <= sessions_id_seq db < 2 ^ 31 /\
                 sessions db'
                 = insert_at slot (issued_row rng now l' r db) (sessions db)
  | IsValid ns nd t =>
      sessions db' = sessions db \/
      sessions db' = filter (fun r => negb (Sql.is_expired nd r)) (sessions db)
  | GetLogin _ | GetRoleId _ => sessions db' = sessions db
  | Revoke t =>
      sessions db' = sessions db \/
      sessions db' = filter (fun r => negb (Sql.token_is t r)) (sessions db)
  end.
Proof.
  intros [Hret | e Hraise Hsame].
  - destruct c as [rng n sl l r | ns nd t | t | t | t]; simpl in Hret;
      apply run_returns in Hret as [a Hret].
    + apply store_user_auth_returns in Hret
        as (l' & Hl & Hr & Hseq & _ & [= ->]).
      right. exists l'. auto.
    + apply is_valid_token_returns in Hret as (_ & _ & [= ->]). now right.
    + now apply get_login_by_token_returns in Hret as (_ & [= ->] & _).
    + now apply get_role_id_by_token_returns in Hret as (_ & [= ->] & _).
    + apply remove_token_returns in Hret as (_ & [= ->]). now right.
  - destruct c as [rng n sl l r | ns nd t | t | t | t]; auto.
Qed.

Lemma timestamp0_seconds (t : Z) : Pg.timestamp0 t mod 1000000 = 0.
Proof.
  unfold Pg.timestamp0. destruct (0 <=? t).
  - apply Z.mod_mul. lia.
  - rewrite <- Z.mul_opp_l. apply Z.mod_mul. lia.
Qed.

Lemma issued_row_ok rng now l l' r db :
  Pg.bpchar 64 l = Some l' -> - 2 ^ 31 <= r < 2 ^ 31 ->
  - 2 ^ 31 <= sessions_id_seq db < 2 ^ 31 ->
  row_ok (issued_row rng now l' r db).
Proof.
  intros Hl Hr Hseq. unfold row_ok. simpl.
  split; [exact (generate_token_length rng)|].
  split; [exact (bpchar_length _ _ _ Hl)|].
  split; [exact Hr|]. split; [exact Hseq|]. apply timestamp0_seconds.
Qed.

Lemma table_ok_step db c db' : step db c db' -> table_ok db -> table_ok db'.
Proof.
  intros Hstep Hok x Hx. apply step_rows in Hstep.
  destruct c as [rng n sl l r | ns nd t | t | t | t].
  - destruct Hstep as [E | (l' & Hl & Hr & Hseq & E)]; rewrite E in Hx; auto.
    apply in_insert_at in Hx as [-> | Hx]; auto.
    eapply issued_row_ok; eauto.
  - destruct Hstep as [E | E]; rewrite E in Hx; auto.
    apply filter_In in Hx as [Hx _]. auto.
  - rewrite Hstep in Hx. auto.
  - rewrite Hstep in Hx. auto.
  - destruct Hstep as [E | E]; rewrite E in Hx; auto.
    apply filter_In in Hx as [Hx _]. auto.
Qed.

(** X5.  The table stays within its column types.  Starting from a
    table whose rows have 64-character tokens and logins, roles and
    keys in the range of [INTEGER] and expiry times on the whole second
    (the empty table that [configure_db] creates is one), every history
    of calls, raising or not, ends in such a table. *)
Theorem table_ok_kept (db : database) (hist : list call) (db' : database) :
  table_ok db -> steps db hist db' -> table_ok db'.
Proof.
  intros Hok Hsteps.
  induction Hsteps as [db | db c db1 cs db2 H1 _ IH]; eauto using table_ok_step.
Qed.

Lemma table_ok_empty_db : table_ok empty_db.
Proof. intros r []. Defined.

Lemma table_ok_kept_witness : table_ok sample_later.
Proof.
  apply (table_ok_kept empty_db
           (Issue sample_rng 847000000700000 0 (lit "alice") 2
            :: sample_history)).
  - exact table_ok_empty_db.
  - apply steps_cons with sample_issued; [|exact sample_steps].
    apply step_returns. vm_compute. reflexivity.
Defined.

(** The cells of the table hold no U+0000: the backend has refused
    every text that did. *)
Lemma text_cells_step db c db' :
  step db c db' ->
  (forall r, In r (sessions db) ->
             Pg.text_ok (token r) = true /\ Pg.text_ok (login r) = true) ->
  forall r, In r (sessions db') ->
            Pg.text_ok (token r) = true /\ Pg.text_ok (login r) = true.
Proof.
  intros Hstep Hok x Hx. apply step_rows in Hstep.
  destruct c as [rng n sl l r | ns nd t | t | t | t].
  - destruct Hstep as [E | (l' & Hl & Hr & Hseq & E)]; rewrite E in Hx; auto.
    apply in_insert_at in Hx as [-> | Hx]; auto. simpl.
    split; [apply generate_token_text_ok|].
    exact (proj2 (bpchar_text_ok _ _ _ Hl)).
  - destruct Hstep as [E | E]; rewrite E in Hx; auto.
    apply filter_In in Hx as [Hx _]. auto.
  - rewrite Hstep in Hx. auto.
  - rewrite Hstep in Hx. auto.
  - destruct Hstep as [E | E]; rewrite E in Hx; auto.
    apply filter_In in Hx as [Hx _]. auto.
Qed.

(** X6.  No call alters a row.  After any history, each row of the
    table either was in the table before, field for field, or is the
    row of one issue of the history, with that issue's token, login,
    role and expiry: checks and lookups never move an expiry. *)
Theorem rows_never_altered (db : database) (hist : list call) (db' : database)
  (r : session) :
  steps db hist db' -> In r (sessions db') ->
  In r (sessions db) \/ exists c, In c hist /\ issued_by c r.
Proof.
  intros Hsteps. induction Hsteps as [db | db c db1 cs db2 H1 _ IH];
    intros Hr; [now left|].
  destruct (IH Hr) as [Hin | (c' & Hc' & Hby)];
    [| right; exists c'; split; [now right | exact Hby]].
  apply step_rows in H1.
  destruct c as [rng n sl l rl | ns nd t | t | t | t].
  - destruct H1 as [E | (l' & Hl & _ & _ & E)]; rewrite E in Hin;
      [now left|].
    apply in_insert_at in Hin as [-> | Hin]; [|now left].
    right. exists (Issue rng n sl l rl). split; [now left|]. simpl. auto.
  - destruct H1 as [E | E]; rewrite E in Hin; [now left|].
    apply filter_In in Hin as [Hin _]. now left.
  - rewrite H1 in Hin. now left.
  - rewrite H1 in Hin. now left.
  - destruct H1 as [E | E]; rewrite E in Hin; [now left|].
    apply filter_In in Hin as [Hin _]. now left.
Qed.

Lemma rows_never_altered_witness :
  In (issued_row other_rng 847000001000000 (lit "bob" ++ Pg.blanks 61) 1
        sample_issued) (sessions sample_issued) \/
  exists c,
    In c [Issue other_rng 847000001000000 1 (lit "bob") 1] /\
    issued_by c (issued_row other_rng 847000001000000
                   (lit "bob" ++ Pg.blanks 61) 1 sample_issued).
Proof.
  apply (rows_never_altered sample_issued _ sample_both).
  - apply steps_cons with sample_both; [|apply steps_nil].
    apply step_returns. vm_compute. reflexivity.
  - right. left. reflexivity.
Defined.

(** ** A token without a row stays without *)



Lemma fresh_lookups t db :
  Pg.text_ok t = true ->
  fresh t db ->
  get_login_by_token t (Some db) = Raise IndexError /\
  get_role_id_by_token t (Some db) = Raise IndexError.
Proof.
  intros Htext Hfresh. apply find_none_iff in Hfresh.
  now rewrite (get_login_by_token_eq _ _ Htext),
    (get_role_id_by_token_eq _ _ Htext), Hfresh.
Qed.





(** ** Sessions do not disturb one another *)











(** ** Checking before looking up *)

(** X11.  The check gates the lookups when its sweep is not dated
    after its [SELECT]: if [is_valid_token] answers [true] and the
    [DELETE] read the same time as the [SELECT] (or an earlier one),
    then in the table it leaves both lookups of the token return. *)
Theorem valid_then_lookups_return (t : str) (db db' : database) (ns nd : Z) :
  is_valid_token ns nd t (Some db) = Ok (true, Some db') ->
  nd <= ns ->
  exists r,
    In r (sessions db) /\ Sql.token_is t r = true /\ nd < expires r /\
    get_login_by_token t (Some db') = Ok (strip (login r), Some db') /\
    get_role_id_by_token t (Some db') = Ok (role_id r, Some db').
Proof.
  intros Hvalid Hle.
  apply is_valid_token_returns in Hvalid as (Htext & Hex & [= ->]).
  symmetry in Hex.
  apply existsb_exists in Hex as (x & Hx & Hlive).
  unfold Sql.token_is_live in Hlive. apply andb_true_iff in Hlive as [Hm Hlive].
  apply Z.ltb_lt in Hlive.
  set (kept := filter (fun r => negb (Sql.is_expired nd r)) (sessions db)).
  assert (Hkept : In x kept).
  { apply filter_In. split; [exact Hx|]. unfold Sql.is_expired.
    apply negb_true_iff, Z.leb_gt. lia. }
  destruct (find (Sql.token_is t) kept) as [r|] eqn:Hfind.
  2:{ rewrite (find_none _ _ Hfind _ Hkept) in Hm. discriminate. }
  destruct (find_some _ _ Hfind) as [Hr Hrm].
  apply filter_In in Hr as [Hr Hrlive].
  unfold Sql.is_expired in Hrlive. apply negb_true_iff, Z.leb_gt in Hrlive.
  exists r. rewrite (get_login_by_token_eq _ _ Htext),
    (get_role_id_by_token_eq _ _ Htext).
  simpl. fold kept. rewrite Hfind. repeat split; auto.
Qed.

Lemma valid_then_lookups_return_witness :
  exists r,
    In r (sessions sample_racy) /\
    get_login_by_token (_generate_token sample_rng) (Some sample_racy)
      = Ok (strip (login r), Some sample_racy).
Proof.
  destruct (valid_then_lookups_return (_generate_token sample_rng)
              sample_racy sample_racy 847043200999999 847043200999999)
    as (r & Hr & _ & _ & Hlogin & _); [reflexivity | lia |].
  exists r. split; [exact Hr | exact Hlogin].
Defined.

(** X12.  The check does not gate the lookups when its sweep is dated
    later: if [is_valid_token] answers [true] and every row of the
    token expires at or before the time its [DELETE] reads, then the
    call has deleted the rows it found valid, the [DELETE] read a later
    time than the [SELECT], and both lookups of the token raise
    [IndexError] in the table it leaves. *)
Theorem valid_but_swept (t : str) (db db' : database) (ns nd : Z) :
  is_valid_token ns nd t (Some db) = Ok (true, Some db') ->
  (forall r, In r (sessions db) -> Sql.token_is t r = true ->
             expires r <= nd) ->
  ns < nd /\ fresh t db' /\
  get_login_by_token t (Some db') = Raise IndexError /\
  get_role_id_by_token t (Some db') = Raise IndexError.
Proof.
  intros Hvalid Hdead.
  apply is_valid_token_returns in Hvalid as (Htext & Hex & [= ->]).
  symmetry in Hex.
  apply existsb_exists in Hex as (x & Hx & Hlive).
  unfold Sql.token_is_live in Hlive. apply andb_true_iff in Hlive as [Hm Hlive].
  apply Z.ltb_lt in Hlive. specialize (Hdead x Hx Hm) as Hxdead.
  split; [lia|].
  assert (Hfresh : fresh t
            {| sessions := filter (fun r => negb (Sql.is_expired nd r))
                                  (sessions db);
               sessions_id_seq := sessions_id_seq db |}).
  { intros r Hr. simpl in Hr. apply filter_In in Hr as [Hr Hkept].
    destruct (Sql.token_is t r) eqn:Hrm; [|reflexivity].
    specialize (Hdead r Hr Hrm). unfold Sql.is_expired in Hkept.
    apply negb_true_iff, Z.leb_gt in Hkept. lia. }
  split; [exact Hfresh | now apply fresh_lookups].
Qed.

Lemma valid_but_swept_witness :
  exists db',
    is_valid_token 847043200999999 847043201000000
      (_generate_token sample_rng) (Some sample_racy) = Ok (true, Some db') /\
    get_login_by_token (_generate_token sample_rng) (Some db')
      = Raise IndexError.
Proof.
  eexists. split; [vm_compute; reflexivity|].
  refine (proj1 (proj2 (proj2
    (valid_but_swept (_generate_token sample_rng) sample_racy _
       847043200999999 847043201000000 _ _)))).
  - vm_compute. reflexivity.
  - intros r [<- | []] _. simpl. lia.
Defined.

(** ** Trailing blanks *)

(** X13.  Blanks at the end of the token make no difference to any of
    the four functions that take one: the token with blanks appended
    is checked, looked up and revoked as the token itself. *)
Theorem token_trailing_blanks (t : str) (k : nat) (ns nd : Z)
  (c : connection) :
  is_valid_token ns nd (t ++ Pg.blanks k) c = is_valid_token ns nd t c /\
  get_login_by_token (t ++ Pg.blanks k) c = get_login_by_token t c /\
  get_role_id_by_token (t ++ Pg.blanks k) c = get_role_id_by_token t c /\
  remove_token (t ++ Pg.blanks k) c = remove_token t c.
Proof.
  assert (Hblank : forallb is_blank (Pg.blanks k) = true)
    by now apply forallb_blanks.
  assert (Hrow : forall r, Sql.token_is (t ++ Pg.blanks k) r = Sql.token_is t r).
  { intros r. unfold Sql.token_is, Pg.bpchar_eq.
    now rewrite dropwhile_end_app_all. }
  assert (Hfilter : forall l,
            filter (fun r => negb (Sql.token_is (t ++ Pg.blanks k) r)) l
            = filter (fun r => negb (Sql.token_is t r)) l).
  { intros l. apply filter_ext. intros r. now rewrite Hrow. }
  assert (Hfind : forall l, find (Sql.token_is (t ++ Pg.blanks k)) l
                            = find (Sql.token_is t) l).
  { intros l. induction l as [|a l IH]; simpl; [reflexivity|].
    now rewrite Hrow, IH. }
  assert (Hex : forall l,
            existsb (Sql.token_is_live (t ++ Pg.blanks k) ns) l
            = existsb (Sql.token_is_live t ns) l).
  { intros l. induction l as [|a l IH]; simpl; [reflexivity|].
    unfold Sql.token_is_live at 1 3. now rewrite Hrow, IH. }
  destruct c as [db|]; [|repeat split; reflexivity].
  destruct (Pg.text_ok t) eqn:Htext.
  - assert (Htext' : Pg.text_ok (t ++ Pg.blanks k) = true)
      by now rewrite text_ok_trailing.
    rewrite (is_valid_token_eq _ _ _ _ Htext),
      (is_valid_token_eq _ _ _ _ Htext'),
      (get_login_by_token_eq _ _ Htext), (get_login_by_token_eq _ _ Htext'),
      (get_role_id_by_token_eq _ _ Htext),
      (get_role_id_by_token_eq _ _ Htext'),
      (remove_token_eq _ _ Htext), (remove_token_eq _ _ Htext'),
      Hfind, Hex, Hfilter.
    repeat split; reflexivity.
  - assert (Htext' : Pg.text_ok (t ++ Pg.blanks k) = false)
      by now rewrite text_ok_trailing.
    destruct (nul_token_raises _ ns nd db Htext) as (E1 & E2 & E3 & E4).
    destruct (nul_token_raises _ ns nd db Htext') as (F1 & F2 & F3 & F4).
    rewrite E1, E2, E3, E4, F1, F2, F3, F4. repeat split; reflexivity.
Qed.

Lemma firstn_blanks (m j : nat) :
  firstn m (Pg.blanks j) = Pg.blanks (Nat.min m j).
Proof.
  unfold Pg.blanks. revert j. induction m as [|m IH]; intros [|j]; simpl;
    try reflexivity. now rewrite IH.
Qed.

Lemma skipn_blanks (m j : nat) :
  forallb is_blank (skipn m (Pg.blanks j)) = true.
Proof.
  unfold Pg.blanks. revert j. induction m as [|m IH]; intros [|j]; simpl;
    try reflexivity; [|apply IH].
  change (forallb is_blank (Pg.blanks j) = true). now apply forallb_blanks.
Qed.

(** The stored form of a value is the first [n] characters of the value
    followed by blanks without end. *)
Lemma bpchar_firstn (n : nat) (s : str) :
  Pg.bpchar n s =
    if Pg.text_ok s && forallb is_blank (skipn n s)
    then Some (firstn n (s ++ Pg.blanks n)) else None.
Proof.
  unfold Pg.bpchar. destruct (Pg.text_ok s); simpl; [|reflexivity].
  destruct (length s <=? n)%nat eqn:Hle.
  - apply Nat.leb_le in Hle. rewrite skipn_all2 by exact Hle. simpl.
    rewrite firstn_app, (firstn_all2 s) by exact Hle.
    rewrite firstn_blanks. do 3 f_equal. lia.
  - apply Nat.leb_gt in Hle.
    destruct (forallb is_blank (skipn n s)); [|reflexivity].
    rewrite firstn_app. replace (n - length s)%nat with 0%nat by lia.
    simpl. now rewrite app_nil_r.
Qed.

Lemma bpchar_trailing_blanks (n k : nat) (s : str) :
  Pg.bpchar n (s ++ Pg.blanks k) = Pg.bpchar n s.
Proof.
  rewrite !bpchar_firstn, skipn_app, forallb_app, skipn_blanks, andb_true_r.
  rewrite text_ok_trailing by now apply forallb_blanks.
  destruct (Pg.text_ok s && forallb is_blank (skipn n s)); [|reflexivity].
  f_equal.
  rewrite <- app_assoc, !firstn_app, !firstn_blanks. f_equal.
  unfold Pg.blanks. rewrite <- repeat_app, repeat_length. f_equal. lia.
Qed.

(** X14.  Blanks at the end of the login are not kept: a login with
    blanks appended is issued exactly as the login itself, with the same
    outcome, the same token and the same table. *)
Theorem login_trailing_blanks (rng : entropy) (now : Z) (slot : nat)
  (l : str) (k : nat) (r : Z) (c : connection) :
  store_user_auth rng now slot (l ++ Pg.blanks k) r c
  = store_user_auth rng now slot l r c.
Proof.
  destruct c as [db|]; [|reflexivity].
  unfold store_user_auth, bind, assert_DB_CONN, run_statement,
    Sql.insert_session.
  now rewrite bpchar_trailing_blanks.
Qed.

(** ** The login a lookup returns *)

Lemma dropwhile_starts_clean (p : ascii -> bool) (s : str) :
  starts_clean p (dropwhile p s).
Proof.
  induction s as [|c s IH]; simpl; [exact I|].
  destruct (p c) eqn:Hc; [exact IH | exact Hc].
Qed.

Lemma dropwhile_clean (p : ascii -> bool) (s : str) :
  starts_clean p s -> dropwhile p s = s.
Proof. destruct s as [|c s]; simpl; [reflexivity|]. now intros ->. Qed.

Lemma dropwhile_suffix (p : ascii -> bool) (s : str) :
  exists pre, s = pre ++ dropwhile p s.
Proof.
  induction s as [|c s [pre IH]]; simpl; [now exists []|].
  destruct (p c); [|now exists []].
  exists (c :: pre). simpl. now f_equal.
Qed.

Lemma dropwhile_length (p : ascii -> bool) (s : str) :
  (length (dropwhile p s) <= length s)%nat.
Proof.
  destruct (dropwhile_suffix p s) as [pre E]. rewrite E at 2.
  rewrite length_app. lia.
Qed.

Lemma strip_length (s : str) : (length (strip s) <= length s)%nat.
Proof.
  unfold strip, dropwhile_end.
  etransitivity; [apply dropwhile_length|].
  rewrite length_rev. etransitivity; [apply dropwhile_length|].
  now rewrite length_rev.
Qed.

Lemma strip_strip (s : str) : strip (strip s) = strip s.
Proof.
  unfold strip at 1.
  assert (Hend : dropwhile_end isspace (strip s) = strip s).
  { unfold strip, dropwhile_end.
    set (u := rev (dropwhile isspace (rev s))).
    assert (Hu : starts_clean isspace (rev u)).
    { unfold u. rewrite rev_involutive. apply dropwhile_starts_clean. }
    destruct (dropwhile_suffix isspace u) as [pre E].
    set (v := dropwhile isspace u) in *.
    rewrite dropwhile_clean; [apply rev_involutive|].
    rewrite E, rev_app_distr in Hu.
    destruct (rev v) as [|c w]; [exact I | exact Hu]. }
  rewrite Hend. apply dropwhile_clean. apply dropwhile_starts_clean.
Qed.

(** X15.  The login a lookup returns is the login of a row that carries
    the token, stripped: it is in normal form, with no whitespace at
    either end (stripping it again changes nothing), so that it never
    shows the padding of its cell, and it is no longer than the cell of
    that row. *)
Theorem returned_login_stripped (t : str) (c c' : connection) (l : str) :
  get_login_by_token t c = Ok (l, c') ->
  strip l = l /\
  exists db r,
    c = Some db /\ c' = Some db /\
    In r (sessions db) /\ Sql.token_is t r = true /\
    l = strip (login r) /\
    (length l <= length (login r))%nat /\
    get_role_id_by_token t c = Ok (role_id r, c').
Proof.
  intros H. destruct c as [db|]; [|discriminate].
  apply get_login_by_token_returns in H
    as (Htext & -> & r & Hfind & ->).
  split; [apply strip_strip|].
  exists db, r. destruct (find_some _ _ Hfind) as [Hr Hm].
  repeat split; auto using strip_length.
  now rewrite (get_role_id_by_token_eq _ _ Htext), Hfind.
Qed.

Lemma returned_login_stripped_witness :
  strip (lit "bob") = lit "bob" /\
  exists db r,
    Some sample_db = Some db /\ Some sample_db = Some db /\
    In r (sessions db) /\
    Sql.token_is (_generate_token other_rng) r = true /\
    lit "bob" = strip (login r) /\
    (length (lit "bob") <= length (login r))%nat /\
    get_role_id_by_token (_generate_token other_rng) (Some sample_db)
      = Ok (role_id r, Some sample_db).
Proof.
  apply (returned_login_stripped (_generate_token other_rng)
           (Some sample_db) (Some sample_db) (lit "bob")).
  vm_compute. reflexivity.
Defined.

(** ** Sweeps *)

(** Sweeping with one condition and then another is sweeping once
    with both. *)
Lemma filter_both {A : Type} (keep1 keep2 : A -> bool) (rows : list A) :
  filter (fun a => keep1 a && keep2 a) rows = filter keep2 (filter keep1 rows).
Proof.
  induction rows as [|a rows IH]; simpl; [reflexivity|].
  destruct (keep1 a); simpl; [destruct (keep2 a); now rewrite IH | exact IH].
Qed.

(** X16.  Sweeps compose: after two checks, of any tokens, the table
    is the one a single sweep at the later of the two times of their
    [DELETE]s would leave, and the sequence of keys is untouched. *)
Theorem sweeps_compose (t1 t2 : str) (db db1 db2 : database)
  (ns1 nd1 ns2 nd2 : Z) (b1 b2 : bool) :
  is_valid_token ns1 nd1 t1 (Some db) = Ok (b1, Some db1) ->
  is_valid_token ns2 nd2 t2 (Some db1) = Ok (b2, Some db2) ->
  sessions db2 = filter (fun r => Z.max nd1 nd2 <? expires r) (sessions db) /\
  sessions_id_seq db2 = sessions_id_seq db.
Proof.
  intros H1 H2.
  apply is_valid_token_returns in H1 as (_ & _ & [= ->]).
  apply is_valid_token_returns in H2 as (_ & _ & [= ->]). simpl.
  split; [|reflexivity]. rewrite <- filter_both. apply filter_ext.
  intros r. unfold Sql.is_expired.
  destruct (expires r <=? nd1) eqn:E1; destruct (expires r <=? nd2) eqn:E2;
    simpl; symmetry;
    rewrite ?Z.leb_le, ?Z.leb_gt in E1, E2;
    (apply Z.ltb_lt || apply Z.ltb_ge); lia.
Qed.

Lemma sweeps_compose_witness :
  firstn 2 (sessions sample_db)
  = filter (fun r => Z.max 2000000 1000000 <? expires r) (sessions sample_db).
Proof.
  refine (proj1 (sweeps_compose (lit "x") (lit "y") sample_db
              {| sessions := firstn 2 (sessions sample_db);
                 sessions_id_seq := 4 |}
              {| sessions := firstn 2 (sessions sample_db);
                 sessions_id_seq := 4 |}
              0 2000000 0 1000000 false false _ _)); reflexivity.
Defined.




(** ** Keys *)

(** Deleting rows keeps the keys of the others distinct. *)
Lemma ids_distinct_filter (keep : session -> bool) (rows : list session) :
  NoDup (map id rows) -> NoDup (map id (filter keep rows)).
Proof.
  induction rows as [|x rows IH]; simpl; intros Hdistinct; [exact Hdistinct|].
  apply NoDup_cons_iff in Hdistinct as [Hnew Hrest].
  destruct (keep x); simpl; [|exact (IH Hrest)].
  apply NoDup_cons; [|exact (IH Hrest)].
  rewrite in_map_iff. intros (y & Hy & Hin). apply Hnew.
  apply filter_In in Hin as [Hin _]. rewrite <- Hy. now apply in_map.
Qed.

(** A row with a key of its own keeps the keys distinct wherever it is
    put. *)
Lemma ids_distinct_insert (slot : nat) (x : session) (rows : list session) :
  NoDup (map id rows) -> ~ In (id x) (map id rows) ->
  NoDup (map id (insert_at slot x rows)).
Proof.
  revert rows. induction slot as [|slot IH]; intros rows Hdistinct Hnew.
  - unfold insert_at. simpl. now apply NoDup_cons.
  - destruct rows as [|a rows].
    + unfold insert_at. simpl. apply NoDup_cons; [intros [] | constructor].
    + change (insert_at (S slot) x (a :: rows))
        with (a :: insert_at slot x rows).
      simpl in *. apply NoDup_cons_iff in Hdistinct as [Ha Hrest].
      apply NoDup_cons.
      * rewrite in_map_iff. intros (y & Hy & Hin).
        apply in_insert_at in Hin as [-> | Hin];
          [apply Hnew; left; congruence|].
        apply Ha. rewrite <- Hy. now apply in_map.
      * apply IH; tauto.
Qed.

Lemma ids_ok_filter (p : session -> bool) (db : database) :
  ids_ok db ->
  ids_ok {| sessions := filter p (sessions db);
            sessions_id_seq := sessions_id_seq db |}.
Proof.
  intros [Hnd Hlt]. split; simpl.
  - now apply ids_distinct_filter.
  - intros r Hr. apply filter_In in Hr as [Hr _]. auto.
Qed.

(** X18.  Keys stay distinct.  In a table whose [id]s are distinct and
    below the next value of the sequence, every call that returns
    leaves such a table; the row of an issue gets a key that no row of
    the table has. *)
Theorem ids_stay_distinct (c : call) (db db' : database) :
  ids_ok db -> run c (Some db) = Ok (tt, Some db') -> ids_ok db'.
Proof.
  intros Hok Hret.
  destruct c as [rng n sl l r | ns nd t | t | t | t]; simpl in Hret;
    apply run_returns in Hret as [a Hret].
  - apply store_user_auth_returns in Hret
      as (l' & _ & _ & _ & _ & [= ->]).
    destruct Hok as [Hnd Hlt]. split; simpl.
    + apply ids_distinct_insert; [exact Hnd|]. simpl.
      intros Hin. apply in_map_iff in Hin as (x & Hx & Hin).
      specialize (Hlt x Hin). lia.
    + intros x Hx. apply in_insert_at in Hx as [-> | Hx].
      * simpl. lia.
      * specialize (Hlt x Hx). lia.
  - apply is_valid_token_returns in Hret as (_ & _ & [= ->]).
    now apply ids_ok_filter.
  - now apply get_login_by_token_returns in Hret as (_ & [= ->] & _).
  - now apply get_role_id_by_token_returns in Hret as (_ & [= ->] & _).
  - apply remove_token_returns in Hret as (_ & [= ->]).
    now apply ids_ok_filter.
Qed.

Lemma ids_ok_empty_db : ids_ok empty_db.
Proof. split; [constructor | intros r []]. Defined.

Lemma ids_stay_distinct_witness : ids_ok sample_issued.
Proof.
  apply (ids_stay_distinct
           (Issue sample_rng 847000000700000 0 (lit "alice") 2) empty_db).
  - exact ids_ok_empty_db.
  - vm_compute. reflexivity.
Defined.

(** ** A session just issued *)

(** X19.  A session outlives the checks of its first twelve hours less
    half a second: when [store_user_auth] has returned a token, a check
    of it whose two readings of the clock are earlier than the time of
    the issue plus 12 hours minus 0.5 s answers [true] and keeps the
    issued row, so that the same check answers [true] again on the
    table it leaves and both lookups return there. *)
Theorem issued_session_survives (rng : entropy) (now : Z) (slot : nat)
  (l : str) (r : Z) (db db1 : database) (t : str) (ns nd : Z) :
  store_user_auth rng now slot l r (Some db) = Ok (t, Some db1) ->
  ns < now + TTL - 500000 ->
  nd < now + TTL - 500000 ->
  exists db2,
    is_valid_token ns nd t (Some db1) = Ok (true, Some db2) /\
    is_valid_token ns nd t (Some db2) = Ok (true, Some db2) /\
    exists v v',
      get_login_by_token t (Some db2) = Ok (v, Some db2) /\
      get_role_id_by_token t (Some db2) = Ok (v', Some db2).
Proof.
  intros Hissue Hns Hnd.
  apply store_user_auth_returns in Hissue
    as (l' & Hl & _ & _ & -> & [= ->]).
  pose proof (generate_token_text_ok rng) as Htext.
  set (x := issued_row rng now l' r db).
  set (rows := insert_at slot x (sessions db)).
  set (kept := fun r => negb (Sql.is_expired nd r)).
  pose proof (timestamp0_near (now + TTL)) as Hnear.
  assert (Hm : Sql.token_is (_generate_token rng) x = true)
    by apply bpchar_eq_refl.
  assert (Hlive : Sql.token_is_live (_generate_token rng) ns x = true).
  { unfold Sql.token_is_live. rewrite Hm. simpl. apply Z.ltb_lt. lia. }
  assert (Hrow : In x rows) by (apply in_insert_at; now left).
  assert (Hkept : In x (filter kept rows)).
  { apply filter_In. split; [exact Hrow|].
    unfold kept, Sql.is_expired. apply negb_true_iff, Z.leb_gt. simpl. lia. }
  assert (Hex1 : existsb (Sql.token_is_live (_generate_token rng) ns) rows
                 = true).
  { apply existsb_exists. exists x. auto. }
  assert (Hex2 : existsb (Sql.token_is_live (_generate_token rng) ns)
                   (filter kept rows) = true).
  { apply existsb_exists. exists x. auto. }
  rewrite (is_valid_token_eq _ _ _ _ Htext). simpl. fold x rows kept.
  rewrite Hex1. eexists. split; [reflexivity|].
  rewrite (is_valid_token_eq _ _ _ _ Htext),
    (get_login_by_token_eq _ _ Htext), (get_role_id_by_token_eq _ _ Htext).
  simpl. fold kept. rewrite Hex2, filter_idem. split; [reflexivity|].
  destruct (find (Sql.token_is (_generate_token rng)) (filter kept rows))
    as [y|] eqn:Hfind; [eauto|].
  rewrite (find_none _ _ Hfind _ Hkept) in Hm. discriminate.
Qed.

Lemma issued_session_survives_witness :
  exists db2,
    is_valid_token 847000000700000 847000000700000
      (_generate_token sample_rng) (Some sample_issued) = Ok (true, Some db2).
Proof.
  destruct (issued_session_survives _ _ _ _ _ _ _ _ 847000000700000
              847000000700000 sample_issue)
    as (db2 & Hvalid & _); [unfold TTL; lia | unfold TTL; lia |].
  exists db2. exact Hvalid.
Defined.
